(** * SBstoat._logger: block timing statistics

    A shallow embedding of [SBstoat/_logger.py]: the classes
    [BlockSpecification], [Statistic] and [Logger], and the properties of
    the timing engine (span identifiers, accumulation, merge, report).

    Conventions of the embedding.
    - A Python [float] is an IEEE 754 binary64 number: Rocq's primitive
      [float], with its arithmetic. A Python [int] is a [Z].
    - A Python [dict] keeps its keys in insertion order. [statisticDct],
      whose iteration order is observable (the key named by a [KeyError],
      the index of the report before sorting), is an insertion-ordered
      association list; [blockDct], used only through membership, lookup,
      assignment, deletion and [len], is a [gmap].
    - Objects are mutated in place in Python; here every method takes the
      object and returns its new value. The only process-wide state is the
      class attribute [BlockSpecification.guid], passed explicitly.
    - A Python [str] is a [string], the bytes of its UTF-8 encoding, whose
      lexicographic order is Python's order on [str].
    - [time.time()] is an input: the operation that reads the clock takes
      the reading as its argument [now].
    - Text is written to standard output or appended to [toFile]; the
      written lines are collected in a list. The methods of [Logger] take
      every write to succeed; [LoggerIO] gives [endBlock] with the writes
      that raise. *)

From Stdlib Require Import ZArith Floats DecimalString Ascii.
From stdpp Require Import gmap strings list fin_maps sorting.

Local Open Scope Z_scope.

(** ** Exceptions and outcomes *)

(** The key a [KeyError] names: a block name or a span identifier. *)
Inductive key : Type :=
| KStr (s : string)
| KInt (n : Z).

Inductive exn : Type :=
| KeyError (k : key)
| IndexError
| UnboundLocalError (name : string)
| OverflowError
| TypeError
| ValueError
| OSError (name : string).

(** The result of evaluating an expression that may raise. *)
Inductive result (A : Type) : Type :=
| Ok (a : A)
| Err (e : exn).
Arguments Ok {A} a.
Arguments Err {A} e.

(** The outcome of running a method on a state [S]: it returns a value or
    raises, and in both cases leaves a state behind. *)
Inductive outcome (S A : Type) : Type :=
| Returns (a : A) (s : S)
| Raises (e : exn) (s : S).
Arguments Returns {S A} a s.
Arguments Raises {S A} e s.

Definition rbind {A B} (m : result A) (k : A -> result B) : result B :=
  match m with
  | Ok a => k a
  | Err e => Err e
  end.

Notation "x <- m ;; k" := (rbind m (fun x => k))
  (at level 100, m at next level, right associativity,
   format "x  <-  m  ;;  '/' k").

(** ** Python numbers *)

Module Py.

(** [float(n)] for an [int]: the correctly rounded binary64 value, and
    [OverflowError] when [n] is too large to convert. *)
Definition float_of_int (n : Z) : result float :=
  match binary_normalize prec emax n 0 false with
  | S754_infinity _ => Err OverflowError
  | sf => Ok (SF2Prim sf)
  end.

(** [x / n] for a float [x] and a non-zero int [n]. *)
Definition truediv (x : float) (n : Z) : result float :=
  d <- float_of_int n ;;
  Ok (x / d)%float.

(** ["%d" % n] *)
Definition format_d (n : Z) : string := NilZero.string_of_int (Z.to_int n).

End Py.

(** ** Insertion-ordered dictionaries with string keys *)

Module Dict.
Section Dict.
Context {V : Type}.

Definition t := list (string * V).

Definition keys (d : t) : list string := d.*1.

Definition values (d : t) : list V := d.*2.

Fixpoint get (d : t) (k : string) : option V :=
  match d with
  | [] => None
  | (k', v) :: d' => if decide (k' = k) then Some v else get d' k
  end.

(** [d[k]] *)
Definition getitem (d : t) (k : string) : result V :=
  match get d k with Some v => Ok v | None => Err (KeyError (KStr k)) end.

(** [k in d.keys()] *)
Definition mem (d : t) (k : string) : bool :=
  match get d k with Some _ => true | None => false end.

(** [d[k] = v]: an existing key keeps its place, a new one goes last. *)
Fixpoint set (d : t) (k : string) (v : V) : t :=
  match d with
  | [] => [(k, v)]
  | (k', v') :: d' =>
      if decide (k' = k) then (k', v) :: d' else (k', v') :: set d' k v
  end.

(** A dictionary has each key once. *)
Definition wf (d : t) : Prop := NoDup (keys d).

End Dict.
Arguments t : clear implicits.
End Dict.

(** ** class BlockSpecification *)

Module BlockSpecification.

Record t : Type := mk {
  guid : Z;
  startTime : float;
  block : string;
  duration : option float;
}.

(** [__init__]: [counter] is the class attribute [BlockSpecification.guid];
    its new value is returned with the object. *)
Definition init (block : string) (now : float) (counter : Z) : t * Z :=
  (mk counter now block None, counter + 1).

Definition setDuration (now : float) (self : t) : t :=
  mk (guid self) (startTime self) (block self)
     (Some (now - startTime self)%float).

End BlockSpecification.

(** ** class Statistic *)

Module Statistic.

Record t : Type := mk {
  block : option string;
  count : Z;
  total : float;
  mean : option float;
}.

Definition init (block : option string) : t := mk block 0 0%float None.

(** Modelled from the spec: [_helpers.copyObject], which is not among the
    sources; [copy()] is a deep, independent clone. On values it is the
    identity. *)
Definition copy (self : t) : t := self.

Definition update (value : float) (self : t) : t :=
  mk (block self) (count self + 1) (total self + value)%float (mean self).

(** [merge]: the attributes of [STATISTIC_ATTR_MERGE], [count] then
    [total], are set on a copy of [self]. *)
Definition merge (self other : t) : t :=
  let newStatistic := copy self in
  let newStatistic :=
    mk (block newStatistic) (count self + count other)
       (total newStatistic) (mean newStatistic) in
  let newStatistic :=
    mk (block newStatistic) (count newStatistic)
       (total self + total other)%float (mean newStatistic) in
  newStatistic.

Definition summarize (self : t) : outcome t unit :=
  if decide (count self = 0) then
    Returns tt (mk (block self) (count self) (total self) (Some 0%float))
  else
    match Py.truediv (total self) (count self) with
    | Ok m => Returns tt (mk (block self) (count self) (total self) (Some m))
    | Err e => Raises e self
    end.

(** [a == b] on the values of [mean]: [None] or a float. *)
Definition eq_mean (a b : option float) : bool :=
  match a, b with
  | None, None => true
  | Some x, Some y => PrimFloat.eqb x y
  | _, _ => false
  end.

(** [equals]: the attributes of [STATISTIC_ATTR_EQUALS], [count], [total]
    and [mean], are compared with [==]. *)
Definition equals (self other : t) : bool :=
  let true' := true in
  let true' := true' && Z.eqb (count self) (count other) in
  let true' := true' && PrimFloat.eqb (total self) (total other) in
  let true' := true' && eq_mean (mean self) (mean other) in
  true'.

End Statistic.

(** ** class Logger *)

Definition LEVEL_ACTIVITY : Z := 1.
Definition LEVEL_RESULT : Z := 2.
Definition LEVEL_STATUS : Z := 3.
Definition LEVEL_EXCEPTION : Z := 4.
Definition LEVEL_ERROR : Z := 5.

(** A row of the report: the columns [COUNT], [MEAN] and [TOTAL]. *)
Record Row : Type := mkRow {
  row_count : Z;
  row_mean : option float;
  row_total : float;
}.

(** The report, a [pd.DataFrame]: the rows with their index labels. *)
Definition DataFrame : Type := list (string * Row).

(** [pd.DataFrame({COUNT: counts, MEAN: means, TOTAL: totals})] with
    [index = indices]. *)
Fixpoint frame (indices : list string) (counts : list Z)
    (means : list (option float)) (totals : list float) : DataFrame :=
  match indices, counts, means, totals with
  | i :: indices, c :: counts, m :: means, t :: totals =>
      (i, mkRow c m t) :: frame indices counts means totals
  | _, _, _, _ => []
  end.

Definition index_le (r1 r2 : string * Row) : Prop := String.le r1.1 r2.1.

Definition sort_index (df : DataFrame) : DataFrame := merge_sort index_le df.

(** A line written by [_write]: where it went ([None] is standard output),
    the time relative to the logger's start, the number of blank lines put
    before it, and the message. *)
Record Line : Type := mkLine {
  line_file : option string;
  line_relTime : float;
  line_numNL : Z;
  line_msg : string;
}.

(** What is shared by all loggers of a process: the class attribute
    [BlockSpecification.guid] and the text written so far. *)
Record World : Type := mkWorld {
  guid_counter : Z;
  written : list Line;
}.

Module Logger.

Record t : Type := mk {
  isReport : bool;
  toFile : option string;
  startTime : float;
  logLevel : Z;
  unpairedBlocks : Z;
  blockDct : gmap Z BlockSpecification.t;
  _performanceDF : option DataFrame;
  statisticDct : Dict.t Statistic.t;
}.

Definition init (isReport : bool) (toFile : option string) (logLevel : Z)
    (now : float) : t :=
  mk isReport toFile now logLevel 0 ∅ None [].

Definition set_unpairedBlocks (n : Z) (self : t) : t :=
  mk (isReport self) (toFile self) (startTime self) (logLevel self) n
     (blockDct self) (_performanceDF self) (statisticDct self).

Definition set_blockDct (d : gmap Z BlockSpecification.t) (self : t) : t :=
  mk (isReport self) (toFile self) (startTime self) (logLevel self)
     (unpairedBlocks self) d (_performanceDF self) (statisticDct self).

Definition set_performanceDF (df : option DataFrame) (self : t) : t :=
  mk (isReport self) (toFile self) (startTime self) (logLevel self)
     (unpairedBlocks self) (blockDct self) df (statisticDct self).

Definition set_statisticDct (d : Dict.t Statistic.t) (self : t) : t :=
  mk (isReport self) (toFile self) (startTime self) (logLevel self)
     (unpairedBlocks self) (blockDct self) (_performanceDF self) d.

(** Modelled from the spec: [_helpers.copyObject], which is not among the
    sources; [copy()] is a deep, independent clone with no aliasing of the
    tables. On values it is the identity. *)
Definition copy (self : t) : t := self.

(** [[s.summarize() for s in self.statisticDct.values()]]: the statistics
    are summarized in place, in order, until one raises. *)
Fixpoint summarize_values (d : Dict.t Statistic.t)
  : outcome (Dict.t Statistic.t) unit :=
  match d with
  | [] => Returns tt []
  | (b, s) :: d' =>
      match Statistic.summarize s with
      | Raises e s' => Raises e ((b, s') :: d')
      | Returns _ s' =>
          match summarize_values d' with
          | Raises e d'' => Raises e ((b, s') :: d'')
          | Returns _ d'' => Returns tt ((b, s') :: d'')
          end
      end
  end.

(** [[f(self.statisticDct[b]) for b in indices]] *)
Fixpoint column {A} (f : Statistic.t -> A) (d : Dict.t Statistic.t)
    (indices : list string) : result (list A) :=
  match indices with
  | [] => Ok []
  | b :: indices =>
      s <- Dict.getitem d b ;;
      rest <- column f d indices ;;
      Ok (f s :: rest)
  end.

(** The property [performanceDF]. *)
Definition performanceDF (self : t) : outcome t DataFrame :=
  match _performanceDF self with
  | Some df => Returns df self
  | None =>
      let self := set_unpairedBlocks (Z.of_nat (size (blockDct self))) self in
      let indices := Dict.keys (statisticDct self) in
      match summarize_values (statisticDct self) with
      | Raises e d => Raises e (set_statisticDct d self)
      | Returns _ d =>
          let self := set_statisticDct d self in
          match
            means <- column Statistic.mean (statisticDct self) indices ;;
            counts <- column Statistic.count (statisticDct self) indices ;;
            totals <- column Statistic.total (statisticDct self) indices ;;
            Ok (frame indices counts means totals)
          with
          | Err e => Raises e self
          | Ok df =>
              let self := set_performanceDF (Some df) self in
              (* self.performanceDF.sort_index(): the getter returns the
                 frame just stored *)
              let df := sort_index df in
              Returns df (set_performanceDF (Some df) self)
          end
      end
  end.

Definition _write (msg : string) (numNL : Z) (now : float) (self : t)
    (w : World) : World :=
  let relTime := (now - startTime self)%float in
  mkWorld (guid_counter w)
          (written w ++ [mkLine (toFile self) relTime numNL msg]).

Definition exception (msg : string) (now : float) (self : t) (w : World)
  : World :=
  if isReport self && bool_decide (LEVEL_EXCEPTION ≤ logLevel self) then
    _write ("    (" +:+ msg +:+ ")") 0 now self w
  else w.

Definition startBlock (block : string) (now : float) (w : World) (self : t)
  : outcome (World * t) Z :=
  let '(spec, counter) :=
    BlockSpecification.init block now (guid_counter w) in
  let w := mkWorld counter (written w) in
  let self :=
    set_blockDct (<[BlockSpecification.guid spec := spec]> (blockDct self))
                 self in
  Returns (BlockSpecification.guid spec) (w, self).

(** The body of the loop of [_merge], for one item of
    [self.statisticDct]; [acc] is [newLogger] so far, or the exception
    that ended the loop. *)
Definition _merge_body (other : t) (acc : result t)
    (item : string * Statistic.t) : result t :=
  newLogger <- acc ;;
  otherStatistic <- Dict.getitem (statisticDct other) item.1 ;;
  Ok (set_statisticDct
        (Dict.set (statisticDct newLogger) item.1
           (Statistic.merge item.2 otherStatistic))
        newLogger).

Definition _merge (self other : t) : result t :=
  let newLogger := copy self in
  foldl (_merge_body other) (Ok newLogger) (statisticDct self).

(** The loop of [merge]: [newLogger] is bound only by the loop body. *)
Fixpoint merge_loop (curLogger : t) (newLogger : option t) (others : list t)
  : result (option t) :=
  match others with
  | [] => Ok newLogger
  | other :: others =>
      newLogger <- _merge curLogger other ;;
      merge_loop newLogger (Some newLogger) others
  end.

Definition merge (others : list t) : result t :=
  match others with
  | [] => Err IndexError
  | curLogger :: rest =>
      newLogger <- merge_loop curLogger None rest ;;
      match newLogger with
      | Some newLogger => Ok newLogger
      | None => Err (UnboundLocalError "newLogger")
      end
  end.

Definition endBlock (guid : Z) (now : float) (w : World) (self : t)
  : outcome (World * t) unit :=
  match blockDct self !! guid with
  | None =>
      Returns tt (exception ("missing guid: " +:+ Py.format_d guid) now self w,
                  self)
  | Some spec =>
      let spec := BlockSpecification.setDuration now spec in
      let self := set_blockDct (<[guid := spec]> (blockDct self)) self in
      let block := BlockSpecification.block spec in
      let self :=
        if negb (Dict.mem (statisticDct self) block) then
          set_statisticDct
            (Dict.set (statisticDct self) block (Statistic.init (Some block)))
            self
        else self in
      match Dict.getitem (statisticDct self) block,
            BlockSpecification.duration spec with
      | Err e, _ => Raises e (w, self)
      | Ok statistic, None =>
          (* update(None): [count += 1] is done, [total += None] raises *)
          Raises TypeError
            (w, set_statisticDct
                  (Dict.set (statisticDct self) block
                     (Statistic.mk (Statistic.block statistic)
                        (Statistic.count statistic + 1)
                        (Statistic.total statistic)
                        (Statistic.mean statistic)))
                  self)
      | Ok statistic, Some value =>
          let self :=
            set_statisticDct
              (Dict.set (statisticDct self) block
                 (Statistic.update value statistic))
              self in
          match blockDct self !! BlockSpecification.guid spec with
          | None =>
              Raises (KeyError (KInt (BlockSpecification.guid spec))) (w, self)
          | Some _ =>
              Returns tt
                (w, set_blockDct
                      (delete (BlockSpecification.guid spec) (blockDct self))
                      self)
          end
      end
  end.

(** ["\n"] *)
Definition NL : string := String (Ascii.ascii_of_nat 10) "".

Definition activity (msg : string) (now : float) (self : t) (w : World)
  : World :=
  if isReport self && bool_decide (LEVEL_ACTIVITY ≤ logLevel self) then
    _write ("***" +:+ msg +:+ "***") 2 now self w
  else w.

Definition result (msg : string) (now : float) (self : t) (w : World)
  : World :=
  if isReport self && bool_decide (LEVEL_RESULT ≤ logLevel self) then
    _write (NL +:+ " **" +:+ msg) 1 now self w
  else w.

Definition status (msg : string) (now : float) (self : t) (w : World)
  : World :=
  if isReport self && bool_decide (LEVEL_STATUS ≤ logLevel self) then
    _write ("    (" +:+ msg +:+ ")") 0 now self w
  else w.

(** [error]: [excp] is [str(excp)], the text of the exception. *)
Definition error (msg excp : string) (now : float) (self : t) (w : World)
  : World :=
  if isReport self && bool_decide (LEVEL_ERROR ≤ logLevel self) then
    let fullMsg := msg +:+ ": " +:+ excp in
    _write ("    (" +:+ fullMsg +:+ ")") 0 now self w
  else w.

(** [join], on the list [args] of its arguments: ["/".join(args)] *)
Fixpoint join (args : list string) : string :=
  match args with
  | [] => ""
  | [a] => a
  | a :: rest => a +:+ "/" +:+ join rest
  end.

End Logger.

(** ** Runs of a logger

    A client drives a logger through calls; a call that raises leaves the
    state it reached and the client goes on. The log records each call
    with what it returned or raised. *)

Inductive call : Type :=
| StartBlock (block : string) (now : float)
| EndBlock (guid : Z) (now : float)
| PerformanceDF.

Inductive value : Type :=
| VInt (n : Z)
| VNone
| VFrame (df : DataFrame).

Definition invoke (c : call) (w : World) (self : Logger.t)
  : outcome (World * Logger.t) value :=
  match c with
  | StartBlock block now =>
      match Logger.startBlock block now w self with
      | Returns guid s => Returns (VInt guid) s
      | Raises e s => Raises e s
      end
  | EndBlock guid now =>
      match Logger.endBlock guid now w self with
      | Returns _ s => Returns VNone s
      | Raises e s => Raises e s
      end
  | PerformanceDF =>
      match Logger.performanceDF self with
      | Returns df self => Returns (VFrame df) (w, self)
      | Raises e self => Raises e (w, self)
      end
  end.

Definition entry : Type := call * result value.

Definition state_of {S A} (o : outcome S A) : S :=
  match o with Returns _ s => s | Raises _ s => s end.

Definition result_of {S A} (o : outcome S A) : result A :=
  match o with Returns a _ => Ok a | Raises e _ => Err e end.

Definition step (st : World * Logger.t * list entry) (c : call)
  : World * Logger.t * list entry :=
  let '(w, self, log) := st in
  let o := invoke c w self in
  (state_of o, log ++ [(c, result_of o)]).

Definition run (calls : list call) (w : World) (self : Logger.t)
  : World * Logger.t * list entry :=
  foldl step (w, self, []) calls.

(** *** What a log says *)

(** The spans opened in a log: identifier returned, block name, time of
    the call. *)
Definition opened (log : list entry) : list (Z * (string * float)) :=
  omap (fun e : entry =>
          match e with
          | (StartBlock block now, Ok (VInt guid)) => Some (guid, (block, now))
          | _ => None
          end) log.

(** The identifiers given to [endBlock] in a log. *)
Definition ended (log : list entry) : list Z :=
  omap (fun e : entry =>
          match e with
          | (EndBlock guid _, _) => Some guid
          | _ => None
          end) log.

(** The span an identifier was returned for. *)
Definition span_of (guid : Z) (log : list entry) : option (string * float) :=
  (list_to_map (opened log) : gmap Z (string * float)) !! guid.

(** Every [endBlock] of [rest], coming after [seen], is given an identifier
    that an earlier [startBlock] returned and no earlier [endBlock] was
    given. *)
Fixpoint matched_from (seen rest : list entry) : Prop :=
  match rest with
  | [] => True
  | e :: rest =>
      match e.1 with
      | EndBlock guid _ => guid ∈ (opened seen).*1 ∧ guid ∉ ended seen
      | _ => True
      end ∧ matched_from (seen ++ [e]) rest
  end.

Definition matched (log : list entry) : Prop := matched_from [] log.

(** The spans closed in a log, in the order of their [endBlock] calls:
    block name and measured duration. *)
Fixpoint closed_from (seen rest : list entry) : list (string * float) :=
  match rest with
  | [] => []
  | e :: rest =>
      match e.1 with
      | EndBlock guid now =>
          match span_of guid seen with
          | Some (block, start) => [(block, (now - start)%float)]
          | None => []
          end
      | _ => []
      end ++ closed_from (seen ++ [e]) rest
  end.

Definition closed (log : list entry) : list (string * float) :=
  closed_from [] log.

(** The durations measured for a block name. *)
Definition durations (block : string) (log : list entry) : list float :=
  (filter (fun c : string * float => c.1 = block) (closed log)).*2.

(** The sum of a list of floats, added in order from [0.0]. *)
Definition fsum (l : list float) : float := foldl PrimFloat.add 0%float l.

(** ** Runs of a process with several loggers

    The client keeps its loggers in a list [loggers]; [loggers[i]] raises
    [IndexError] when there is no such logger. *)

Inductive command : Type :=
| New (isReport : bool) (toFile : option string) (logLevel : Z) (now : float)
| On (i : nat) (c : call)
| Copy (i : nat)
| Merge (others : list nat).

(** [[loggers[i] for i in others]] *)
Definition select (loggers : list Logger.t) (others : list nat)
  : result (list Logger.t) :=
  foldr (fun i acc =>
           match loggers !! i with
           | Some l => rest <- acc ;; Ok (l :: rest)
           | None => Err IndexError
           end) (Ok []) others.

Definition pstep (st : World * list Logger.t * list (command * result value))
    (c : command) : World * list Logger.t * list (command * result value) :=
  let '(w, loggers, log) := st in
  match c with
  | New isReport toFile logLevel now =>
      (w, loggers ++ [Logger.init isReport toFile logLevel now],
       log ++ [(c, Ok VNone)])
  | On i c' =>
      match loggers !! i with
      | None => (w, loggers, log ++ [(c, Err IndexError)])
      | Some self =>
          let o := invoke c' w self in
          ((state_of o).1, <[i := (state_of o).2]> loggers,
           log ++ [(c, result_of o)])
      end
  | Copy i =>
      match loggers !! i with
      | None => (w, loggers, log ++ [(c, Err IndexError)])
      | Some self => (w, loggers ++ [Logger.copy self], log ++ [(c, Ok VNone)])
      end
  | Merge others =>
      match selected <- select loggers others ;; Logger.merge selected with
      | Err e => (w, loggers, log ++ [(c, Err e)])
      | Ok newLogger => (w, loggers ++ [newLogger], log ++ [(c, Ok VNone)])
      end
  end.

Definition prun (commands : list command) (w : World)
    (loggers : list Logger.t)
  : World * list Logger.t * list (command * result value) :=
  foldl pstep (w, loggers, []) commands.

(** The identifiers returned by the [startBlock] calls of a process, in the
    order of the calls. *)
Definition returned (log : list (command * result value)) : list Z :=
  omap (fun e : command * result value =>
          match e with
          | (On _ (StartBlock _ _), Ok (VInt guid)) => Some guid
          | _ => None
          end) log.

(** ** Missing block names

    What [merge] is checked against: the first key of [keys], in order,
    that a statistic table lacks, and the first such key over a sequence
    of loggers. *)

Fixpoint first_missing (d : Dict.t Statistic.t) (keys : list string)
  : option string :=
  match keys with
  | [] => None
  | k :: keys => if Dict.mem d k then first_missing d keys else Some k
  end.

Fixpoint first_lacking (keys : list string) (others : list Logger.t)
  : option string :=
  match others with
  | [] => None
  | other :: others =>
      match first_missing (Logger.statisticDct other) keys with
      | Some k => Some k
      | None => first_lacking keys others
      end
  end.

(** The block names of a logger's statistic table. *)
Definition block_names (l : Logger.t) : list string :=
  Dict.keys (Logger.statisticDct l).

(** The identifiers returned so far are increasing and below the
    counter. *)
Definition fresh_inv (g0 : Z) (w : World)
    (log : list (command * result value)) : Prop :=
  g0 ≤ guid_counter w
  /\ StronglySorted Z.lt (returned log)
  /\ Forall (fun g => g0 ≤ g < guid_counter w) (returned log).

(** ** The report

    What the report is checked against: the state [summarize] leaves a
    statistic in, and the row of a statistic. *)

Definition summarized (s : Statistic.t) : Statistic.t :=
  match Statistic.summarize s with
  | Returns _ s' => s'
  | Raises _ s' => s'
  end.

Definition row_of (item : string * Statistic.t) : string * Row :=
  (item.1, mkRow (Statistic.count item.2) (Statistic.mean item.2)
                 (Statistic.total item.2)).

(** ** The invariant of a run

    After the calls of [log], made on a new logger: the identifiers
    returned are distinct and below the counter, only returned
    identifiers were ended, the live-span table holds the spans opened
    and not ended, the statistic of a block name counts and sums the
    durations measured for it, and every [endBlock] returned. *)

Definition live_spec (guid : Z) (span : string * float)
  : BlockSpecification.t :=
  BlockSpecification.mk guid span.2 span.1 None.

Definition accumulated (block : string) (log : list entry)
    (s : option Statistic.t) : Prop :=
  match s with
  | Some s =>
      durations block log <> []
      /\ Statistic.count s = Z.of_nat (length (durations block log))
      /\ Statistic.total s = fsum (durations block log)
      /\ Statistic.block s = Some block
  | None => durations block log = []
  end.

Record timing_inv (w : World) (self : Logger.t) (log : list entry)
  : Prop := mk_timing_inv {
  inv_fresh : Forall (fun g => g < guid_counter w) (opened log).*1;
  inv_nodup : NoDup (opened log).*1;
  inv_ended : ended log ⊆ (opened log).*1;
  inv_live : forall g,
    Logger.blockDct self !! g
    = if decide (g ∈ ended log) then None
      else live_spec g <$> span_of g log;
  inv_stat : forall block,
    accumulated block log (Dict.get (Logger.statisticDct self) block);
  inv_returned : forall guid now r,
    (EndBlock guid now, r) ∈ log -> r = Ok VNone;
}.

(** Two statistics with the same block name, count and total. *)
Definition same_sums (s s' : Statistic.t) : Prop :=
  Statistic.block s' = Statistic.block s
  /\ Statistic.count s' = Statistic.count s
  /\ Statistic.total s' = Statistic.total s.

(** A logger that has timed one block. *)
Definition cached_example : Logger.t :=
  (run [StartBlock "x" 1; EndBlock 0 2] (mkWorld 0 [])
       (Logger.init true None LEVEL_STATUS 0)).1.2.

(** A run that times three spans of two blocks, with a report in
    between. *)
Definition timed_calls : list call :=
  [StartBlock "x" 1; StartBlock "y" 2; StartBlock "x" 3; EndBlock 7 4.5;
   PerformanceDF; EndBlock 5 4.5; EndBlock 6 8].

Definition timed_run : World * Logger.t * list entry :=
  run timed_calls (mkWorld 5 []) (Logger.init true None LEVEL_STATUS 0).

(** ** Operations of a logger, with its text methods *)

Inductive op : Type :=
| Call (c : call)
| Activity (msg : string) (now : float)
| Result (msg : string) (now : float)
| Status (msg : string) (now : float)
| Exception (msg : string) (now : float)
| Error (msg excp : string) (now : float).

Definition apply_op (o : op) (st : World * Logger.t) : World * Logger.t :=
  match o with
  | Call c => state_of (invoke c st.1 st.2)
  | Activity msg now => (Logger.activity msg now st.2 st.1, st.2)
  | Result msg now => (Logger.result msg now st.2 st.1, st.2)
  | Status msg now => (Logger.status msg now st.2 st.1, st.2)
  | Exception msg now => (Logger.exception msg now st.2 st.1, st.2)
  | Error msg excp now => (Logger.error msg excp now st.2 st.1, st.2)
  end.

Definition run_ops (ops : list op) (w : World) (self : Logger.t)
  : World * Logger.t :=
  foldl (fun st o => apply_op o st) (w, self) ops.

(** The configuration of a logger: what its constructor is given. *)
Definition config (self : Logger.t) : bool * option string * float * Z :=
  (Logger.isReport self, Logger.toFile self, Logger.startTime self,
   Logger.logLevel self).

(** What an operation may add to the text written: at most one line, to
    the logger's destination, and nothing when reporting is off. *)
Definition emitted_by (self : Logger.t) (lines : list Line) : Prop :=
  (length lines ≤ 1)%nat
  /\ Forall (fun l => line_file l = Logger.toFile self) lines
  /\ (Logger.isReport self = false -> lines = []).

(** A string without the separator of [join]. *)
Fixpoint no_slash (s : string) : Prop :=
  match s with
  | EmptyString => True
  | String c s => c <> "/"%char /\ no_slash s
  end.

(** What [==] holds between, on floats: two zeros, two infinities of one
    sign, or a finite number and itself. *)
Definition SFsame (a b : spec_float) : Prop :=
  match a, b with
  | S754_zero _, S754_zero _ => True
  | S754_infinity s1, S754_infinity s2 => s1 = s2
  | S754_finite s1 m1 e1, S754_finite s2 m2 e2 => s1 = s2 /\ m1 = m2 /\ e1 = e2
  | _, _ => False
  end.

(** The statistic of a block name after merging [s] with the statistics
    of that name in [others], from left to right; [None] when one of them
    has none. *)
Definition merged_statistic (block : string) (s : Statistic.t)
    (others : list Logger.t) : option Statistic.t :=
  foldl (fun acc other =>
           s' ← acc;
           Statistic.merge s' <$> Dict.get (Logger.statisticDct other) block)
        (Some s) others.

(** The count a logger has for a block name, [0] when it has none. *)
Definition count_of (block : string) (l : Logger.t) : Z :=
  match Dict.get (Logger.statisticDct l) block with
  | Some s => Statistic.count s
  | None => 0
  end.

(** The total a logger has for a block name, [0.0] when it has none. *)
Definition total_of (block : string) (l : Logger.t) : float :=
  match Dict.get (Logger.statisticDct l) block with
  | Some s => Statistic.total s
  | None => 0%float
  end.

(** ** Text output that can fail

    The methods of [Logger] above take every write to succeed and every
    number to be printable. In the program [print], [open(toFile, "a")]
    and [fd.write] raise when the destination cannot be written, and
    ["%d" % n] raises [ValueError] when [n] has more digits than the
    interpreter allows; no method catches either. [LoggerIO] gives the
    methods on the diagnostic path of [endBlock] with these failures, under
    an environment that says which of them occur. A write that raises is
    taken to have written nothing. *)

Record Environment : Type := mkEnvironment {
  (* what writing to a destination raises, if anything; [None] is
     standard output *)
  write_error : option string -> option exn;
  (* [sys.get_int_max_str_digits()]: [0] when the digits of an [int] are
     not limited, otherwise at least 640 *)
  int_max_str_digits : Z;
}.

Module LoggerIO.

(** The number of decimal digits of [n]. *)
Definition digits (n : Z) : Z :=
  Z.of_nat (String.length (Py.format_d (Z.abs n))).

(** ["%d" % n] *)
Definition format_d (env : Environment) (n : Z) : result string :=
  if bool_decide (0 < int_max_str_digits env < digits n) then Err ValueError
  else Ok (Py.format_d n).

(** What writing to the destination of [self] raises: what the
    environment says, except that [open("", "a")] raises
    [FileNotFoundError], an [OSError], in every environment. *)
Definition failure (env : Environment) (self : Logger.t) : option exn :=
  match Logger.toFile self with
  | Some EmptyString => Some (OSError "FileNotFoundError")
  | dest => write_error env dest
  end.

Definition _write (env : Environment) (msg : string) (numNL : Z)
    (now : float) (self : Logger.t) (w : World) : outcome World unit :=
  match failure env self with
  | Some e => Raises e w
  | None => Returns tt (Logger._write msg numNL now self w)
  end.

Definition exception (env : Environment) (msg : string) (now : float)
    (self : Logger.t) (w : World) : outcome World unit :=
  if Logger.isReport self
     && bool_decide (LEVEL_EXCEPTION ≤ Logger.logLevel self) then
    _write env ("    (" +:+ msg +:+ ")") 0 now self w
  else Returns tt w.

Definition endBlock (env : Environment) (guid : Z) (now : float) (w : World)
    (self : Logger.t) : outcome (World * Logger.t) unit :=
  match Logger.blockDct self !! guid with
  | None =>
      (* the argument of [self.exception] is evaluated first *)
      match format_d env guid with
      | Err e => Raises e (w, self)
      | Ok number =>
          match exception env ("missing guid: " +:+ number) now self w with
          | Returns _ w => Returns tt (w, self)
          | Raises e w => Raises e (w, self)
          end
      end
  | Some spec =>
      let spec := BlockSpecification.setDuration now spec in
      let self :=
        Logger.set_blockDct (<[guid := spec]> (Logger.blockDct self)) self in
      let block := BlockSpecification.block spec in
      let self :=
        if negb (Dict.mem (Logger.statisticDct self) block) then
          Logger.set_statisticDct
            (Dict.set (Logger.statisticDct self) block
               (Statistic.init (Some block)))
            self
        else self in
      match Dict.getitem (Logger.statisticDct self) block,
            BlockSpecification.duration spec with
      | Err e, _ => Raises e (w, self)
      | Ok statistic, None =>
          Raises TypeError
            (w, Logger.set_statisticDct
                  (Dict.set (Logger.statisticDct self) block
                     (Statistic.mk (Statistic.block statistic)
                        (Statistic.count statistic + 1)
                        (Statistic.total statistic)
                        (Statistic.mean statistic)))
                  self)
      | Ok statistic, Some value =>
          let self :=
            Logger.set_statisticDct
              (Dict.set (Logger.statisticDct self) block
                 (Statistic.update value statistic))
              self in
          match Logger.blockDct self !! BlockSpecification.guid spec with
          | None =>
              Raises (KeyError (KInt (BlockSpecification.guid spec))) (w, self)
          | Some _ =>
              Returns tt
                (w, Logger.set_blockDct
                      (delete (BlockSpecification.guid spec)
                         (Logger.blockDct self))
                      self)
          end
      end
  end.

(** A call of a run, [endBlock] being the one that can fail to write. *)
Definition invoke (env : Environment) (c : call) (w : World)
    (self : Logger.t) : outcome (World * Logger.t) value :=
  match c with
  | StartBlock block now =>
      match Logger.startBlock block now w self with
      | Returns guid s => Returns (VInt guid) s
      | Raises e s => Raises e s
      end
  | EndBlock guid now =>
      match endBlock env guid now w self with
      | Returns _ s => Returns VNone s
      | Raises e s => Raises e s
      end
  | PerformanceDF =>
      match Logger.performanceDF self with
      | Returns df self => Returns (VFrame df) (w, self)
      | Raises e self => Raises e (w, self)
      end
  end.

Definition step (env : Environment) (st : World * Logger.t * list entry)
    (c : call) : World * Logger.t * list entry :=
  let '(w, self, log) := st in
  let o := invoke env c w self in
  (state_of o, log ++ [(c, result_of o)]).

Definition run (env : Environment) (calls : list call) (w : World)
    (self : Logger.t) : World * Logger.t * list entry :=
  foldl (step env) (w, self, []) calls.

End LoggerIO.


(** ** Loggers a run can reach

    After [n] calls on a new logger: every live span is stored under its
    own identifier, which is below the counter; the statistic table has
    each block name once; and no count is negative or above [n]. *)
Definition live_sound (w : World) (self : Logger.t) : Prop :=
  forall g spec, Logger.blockDct self !! g = Some spec ->
    BlockSpecification.guid spec = g /\ g < guid_counter w.

Definition sound (n : Z) (w : World) (self : Logger.t) : Prop :=
  live_sound w self
  /\ Dict.wf (Logger.statisticDct self)
  /\ Forall (fun item : string * Statistic.t =>
               0 ≤ Statistic.count item.2 ≤ n)
            (Logger.statisticDct self).

(** The row the report has for a block name whose spans measured the
    durations [ds], in the order they were closed: their number, their
    float sum from [0.0], and the sum divided by the number. *)
Definition measured_row (ds : list float) (row : Row) : Prop :=
  ds <> []
  /\ exists c, Py.float_of_int (Z.of_nat (length ds)) = Ok c
       /\ row = mkRow (Z.of_nat (length ds)) (Some (fsum ds / c)%float)
                      (fsum ds).

(** * Properties *)

Set Warnings "-inexact-float".

(** ** Floats *)

Lemma float_add_comm (x y : float) : (x + y)%float = (y + x)%float.
Proof.
  apply Prim2SF_inj. rewrite !add_spec. unfold SF64add, SFadd.
  destruct (Prim2SF x) as [sx|sx| |sx mx ex],
           (Prim2SF y) as [sy|sy| |sy my ey]; try reflexivity.
  - destruct sx, sy; reflexivity.
  - destruct sx, sy; reflexivity.
  - rewrite (Z.min_comm ey ex). f_equal. apply Z.add_comm.
Qed.

(** Two floats with different representations are different. *)
Lemma float_neq (x y : float) : Prim2SF x <> Prim2SF y -> x <> y.
Proof. congruence. Qed.

(** ** Converting an int to a float *)

Lemma digits2_pos_bounds (p : positive) :
  2 ^ (Z.pos (digits2_pos p) - 1) ≤ Z.pos p < 2 ^ Z.pos (digits2_pos p).
Proof.
  induction p as [p IH|p IH|]; simpl digits2_pos.
  - rewrite Pos2Z.inj_succ.
    replace (Z.succ (Z.pos (digits2_pos p)) - 1)
      with (Z.succ (Z.pos (digits2_pos p) - 1)) by lia.
    rewrite !Z.pow_succ_r by lia. lia.
  - rewrite Pos2Z.inj_succ.
    replace (Z.succ (Z.pos (digits2_pos p)) - 1)
      with (Z.succ (Z.pos (digits2_pos p) - 1)) by lia.
    rewrite !Z.pow_succ_r by lia. lia.
  - simpl. lia.
Qed.

Lemma digits2_pos_le (p : positive) (n : Z) :
  0 ≤ n -> Z.pos p < 2 ^ n -> Z.pos (digits2_pos p) ≤ n.
Proof.
  intros Hn Hp. destruct (digits2_pos_bounds p) as [Hlo _].
  destruct (Z_le_gt_dec (Z.pos (digits2_pos p)) n) as [|Hgt]; [done|].
  assert (2 ^ n ≤ 2 ^ (Z.pos (digits2_pos p) - 1))
    by (apply Z.pow_le_mono_r; lia).
  lia.
Qed.

Lemma digits2_pos_iter (p k : positive) :
  digits2_pos (Pos.iter xO p k) = (digits2_pos p + k)%positive.
Proof.
  induction k as [|k IH] using Pos.peano_ind.
  - simpl. lia.
  - rewrite Pos.iter_succ. simpl. rewrite IH. lia.
Qed.

(** A mantissa of 53 bits with an exponent in range is rounded to
    itself. *)
Lemma binary_round_aux_exact (s : bool) (m : positive) (e : Z) :
  Z.pos (digits2_pos m) = 53 -> -1074 ≤ e ≤ 971 ->
  binary_round_aux prec emax s (Z.pos m) e loc_Exact = S754_finite s m e.
Proof.
  intros Hd He.
  assert (Hshr : shr_fexp prec emax (Z.pos m) e loc_Exact
                 = ({| shr_m := Z.pos m; shr_r := false; shr_s := false |}, e)).
  { unfold shr_fexp, fexp, emin, prec, emax. simpl Zdigits2. rewrite Hd.
    replace (Z.max (53 + e - 53) (3 - 1024 - 53) - e) with 0 by lia.
    reflexivity. }
  unfold binary_round_aux. rewrite Hshr. simpl. rewrite Hshr. simpl.
  unfold emax, prec. destruct (Z.leb_spec e (1024 - 53)); [done|lia].
Qed.

Lemma binary_round_small (s : bool) (p : positive) :
  Z.pos p < 2 ^ 53 ->
  exists m e, binary_round prec emax s p 0 = S754_finite s m e.
Proof.
  intros Hp. pose proof (digits2_pos_le p 53 ltac:(lia) Hp) as Hd.
  unfold binary_round, shl_align, fexp, emin, prec, emax.
  replace (Z.max (Z.pos (digits2_pos p) + 0 - 53) (3 - 1024 - 53) - 0)
    with (Z.pos (digits2_pos p) - 53) by lia.
  replace (Z.max (Z.pos (digits2_pos p) + 0 - 53) (3 - 1024 - 53))
    with (Z.pos (digits2_pos p) - 53) by lia.
  destruct (Z.pos (digits2_pos p) - 53) as [|q|q] eqn:Hq; [|lia|].
  - exists p, 0. apply binary_round_aux_exact; lia.
  - exists (Pos.iter xO p q), (Z.neg q). apply binary_round_aux_exact; [|lia].
    rewrite digits2_pos_iter. lia.
Qed.

Lemma float_of_int_small (n : Z) :
  Z.abs n < 2 ^ 53 -> exists c, Py.float_of_int n = Ok c.
Proof.
  intros Hn. unfold Py.float_of_int, binary_normalize.
  destruct n as [|p|p].
  - by eexists.
  - destruct (binary_round_small false p) as (m & e & ->); [lia|]. by eexists.
  - destruct (binary_round_small true p) as (m & e & ->); [lia|]. by eexists.
Qed.

(** ** Statistic *)

Example merge_scenario :
  let a := Statistic.mk (Some "x") 3 1.2 None in
  let b := Statistic.mk (Some "x") 2 0.8 None in
  Statistic.summarize (Statistic.merge a b)
  = Returns tt (Statistic.mk (Some "x") 5 2 (Some 0.4%float)).
Proof. vm_compute. reflexivity. Qed.

(** C1 fails as stated: merging a summarized Statistic (here count 1,
    total 0.5, mean 0.5) gives a Statistic whose mean is set. *)
Lemma merge_keeps_mean_counterexample :
  let s := Statistic.mk (Some "x") 1 0.5 (Some 0.5%float) in
  let o := Statistic.mk (Some "x") 3 0.25 None in
  Statistic.summarize (Statistic.update 0.5 (Statistic.init (Some "x")))
  = Returns tt s
  /\ Statistic.mean (Statistic.merge s o) = Some 0.5%float
  /\ Statistic.mean (Statistic.merge s o) <> None.
Proof. vm_compute. split; [reflexivity|]. split; [reflexivity|discriminate]. Qed.

(** C1, as amended. [s.merge(o)] is a new Statistic whose count is
    [s.count + o.count] and whose total is [s.total + o.total]; its mean
    and its block name are those of [s]. The mean is not recomputed: it is
    unset when the mean of [s] is unset, and the stale mean of [s]
    otherwise. *)
Theorem merge_sums (s o : Statistic.t) :
  Statistic.count (Statistic.merge s o) = Statistic.count s + Statistic.count o
  /\ Statistic.total (Statistic.merge s o)
     = (Statistic.total s + Statistic.total o)%float
  /\ Statistic.mean (Statistic.merge s o) = Statistic.mean s
  /\ Statistic.block (Statistic.merge s o) = Statistic.block s.
Proof. repeat split. Qed.

(** C5 fails as stated: with totals 0.1, 0.2 and 0.3 the two pairings give
    the totals 0.6000000000000001 and 0.6. *)
Lemma merge_assoc_counterexample :
  let a := Statistic.mk (Some "x") 1 0.1 None in
  let b := Statistic.mk (Some "x") 1 0.2 None in
  let c := Statistic.mk (Some "x") 1 0.3 None in
  Statistic.total (Statistic.merge (Statistic.merge a b) c)
  <> Statistic.total (Statistic.merge a (Statistic.merge b c)).
Proof. apply float_neq. vm_compute. discriminate. Qed.

(** C5, as amended. [merge] is commutative on count and total and
    associative on count; the total of [(a.merge(b)).merge(c)] is
    [(a.total + b.total) + c.total] and that of [a.merge(b.merge(c))] is
    [a.total + (b.total + c.total)], two float sums that agree up to
    rounding only. *)
Theorem merge_comm_assoc (a b c : Statistic.t) :
  Statistic.count (Statistic.merge a b) = Statistic.count (Statistic.merge b a)
  /\ Statistic.total (Statistic.merge a b)
     = Statistic.total (Statistic.merge b a)
  /\ Statistic.count (Statistic.merge (Statistic.merge a b) c)
     = Statistic.count (Statistic.merge a (Statistic.merge b c))
  /\ Statistic.total (Statistic.merge (Statistic.merge a b) c)
     = (Statistic.total a + Statistic.total b + Statistic.total c)%float
  /\ Statistic.total (Statistic.merge a (Statistic.merge b c))
     = (Statistic.total a + (Statistic.total b + Statistic.total c))%float.
Proof.
  simpl. repeat split; [lia | apply float_add_comm | lia].
Qed.

Lemma summarize_zero (s : Statistic.t) :
  Statistic.count s = 0 ->
  Statistic.summarize s
  = Returns tt (Statistic.mk (Statistic.block s) (Statistic.count s)
                  (Statistic.total s) (Some 0%float)).
Proof. intros H. unfold Statistic.summarize. by rewrite decide_True. Qed.

Lemma summarize_nonzero (s : Statistic.t) (c : float) :
  Statistic.count s <> 0 ->
  Py.float_of_int (Statistic.count s) = Ok c ->
  Statistic.summarize s
  = Returns tt (Statistic.mk (Statistic.block s) (Statistic.count s)
                  (Statistic.total s) (Some (Statistic.total s / c)%float)).
Proof.
  intros H Hc. unfold Statistic.summarize, Py.truediv.
  rewrite decide_False by done. by rewrite Hc.
Qed.

Lemma summarize_overflow (s : Statistic.t) (e : exn) :
  Statistic.count s <> 0 ->
  Py.float_of_int (Statistic.count s) = Err e ->
  Statistic.summarize s = Raises e s.
Proof.
  intros H Hc. unfold Statistic.summarize, Py.truediv.
  rewrite decide_False by done. by rewrite Hc.
Qed.

(** [summarize] changes nothing but [mean], also when it raises. *)
Lemma summarize_frame (s : Statistic.t) :
  let s' := match Statistic.summarize s with
            | Returns _ s' => s' | Raises _ s' => s' end in
  Statistic.block s' = Statistic.block s
  /\ Statistic.count s' = Statistic.count s
  /\ Statistic.total s' = Statistic.total s.
Proof.
  unfold Statistic.summarize. case_decide; [done|].
  by destruct (Py.truediv _ _).
Qed.

Lemma summarize_idempotent (s s' : Statistic.t) :
  Statistic.summarize s = Returns tt s' ->
  Statistic.summarize s' = Returns tt s'.
Proof.
  unfold Statistic.summarize. case_decide as H0.
  - intros [= <-]. simpl. by rewrite decide_True.
  - destruct (Py.truediv _ _) as [m|e] eqn:Hm; [|done].
    intros [= <-]. simpl. rewrite decide_False by done. by rewrite Hm.
Qed.

Lemma summarize_returns_small (s : Statistic.t) :
  Z.abs (Statistic.count s) < 2 ^ 53 ->
  result_of (Statistic.summarize s) = Ok tt.
Proof.
  intros Hc. unfold Statistic.summarize, Py.truediv.
  case_decide; [done|].
  by destruct (float_of_int_small _ Hc) as [c ->].
Qed.

(** C6, as amended. [summarize()] sets the mean to [0.0] when the count
    is [0] and, when the count is positive and converts to a float, to
    [total / count], the division of a float by an int. The conversion
    succeeds for every count below [2^53]; when it does not,
    [summarize()] raises [OverflowError] and leaves the Statistic as it
    is, and that is the only way it does not return. It leaves count,
    total and block name alone and is idempotent: on the Statistic it
    returned it returns the same Statistic. *)
Theorem summarize_mean (s : Statistic.t) :
  (Statistic.count s = 0 ->
   exists s', Statistic.summarize s = Returns tt s'
     /\ Statistic.mean s' = Some 0%float)
  /\ (0 < Statistic.count s ->
      match Py.float_of_int (Statistic.count s) with
      | Ok c =>
          exists s', Statistic.summarize s = Returns tt s'
            /\ Statistic.mean s' = Some (Statistic.total s / c)%float
      | Err e =>
          e = OverflowError
          /\ Statistic.summarize s = Raises OverflowError s
          /\ 2 ^ 53 ≤ Statistic.count s
      end)
  /\ (forall s', Statistic.summarize s = Returns tt s' ->
      Statistic.count s' = Statistic.count s
      /\ Statistic.total s' = Statistic.total s
      /\ Statistic.block s' = Statistic.block s
      /\ Statistic.summarize s' = Returns tt s').
Proof.
  split; [|split].
  - intros H. eexists. split; [by apply summarize_zero|done].
  - intros H. destruct (Py.float_of_int _) as [c|e] eqn:Hc.
    + eexists. split; [apply summarize_nonzero; [lia|done]|done].
    + assert (e = OverflowError) as ->.
      { unfold Py.float_of_int in Hc.
        destruct (binary_normalize _ _ _ _ _); congruence. }
      split; [done|]. split; [apply summarize_overflow; [lia|done]|].
      destruct (Z_lt_le_dec (Statistic.count s) (2 ^ 53)) as [Hlt|]; [|done].
      destruct (float_of_int_small (Statistic.count s)) as [c' Hc']; [lia|].
      congruence.
  - intros s' Hs. pose proof (summarize_frame s) as Hf. rewrite Hs in Hf.
    simpl in Hf. destruct Hf as (? & ? & ?).
    eauto using summarize_idempotent.
Qed.

(** C6 at count 5 and total 2.0: the mean is 0.4. *)
Lemma summarize_mean_witness :
  let s := Statistic.mk (Some "x") 5 2 None in
  exists s', Statistic.summarize s = Returns tt s'
    /\ Statistic.mean s' = Some 0.4%float.
Proof.
  intros s. destruct (summarize_mean s) as (_ & H & _).
  exact (H ltac:(simpl; lia)).
Defined.

(** A count that does not convert is reached by merging a Statistic with
    itself 1024 times. *)
Example summarize_overflow_example :
  let s := Nat.iter 1024 (fun s => Statistic.merge s s)
             (Statistic.update 1 (Statistic.init (Some "x"))) in
  Statistic.count s = 2 ^ 1024
  /\ Statistic.summarize s = Raises OverflowError s.
Proof. split; vm_compute; reflexivity. Qed.

(** C6 fails as stated: on a Statistic with a positive count that does
    not convert, here the [2^1024] that 1024 merges of a Statistic with
    itself reach, [summarize()] raises and the mean stays unset. *)
Lemma summarize_mean_counterexample :
  let s := Nat.iter 1024 (fun s => Statistic.merge s s)
             (Statistic.update 1 (Statistic.init (Some "x"))) in
  0 < Statistic.count s
  /\ Statistic.summarize s = Raises OverflowError s
  /\ Statistic.mean (state_of (Statistic.summarize s)) = None.
Proof. split; [|split]; vm_compute; reflexivity. Qed.

(** ** Dictionaries *)

Section DictFacts.
Context {V : Type}.
Implicit Types (d : Dict.t V) (k : string) (v : V).

Lemma get_None d k : Dict.get d k = None <-> k ∉ Dict.keys d.
Proof.
  induction d as [|[k' v'] d IH]; simpl.
  - split; [intros _; apply not_elem_of_nil | done].
  - case_decide as Hk.
    + subst. split; [done | intros []; left].
    + rewrite IH, not_elem_of_cons. intuition congruence.
Qed.

Lemma get_Some_keys d k v : Dict.get d k = Some v -> k ∈ Dict.keys d.
Proof.
  intros H. destruct (decide (k ∈ Dict.keys d)) as [|Hn]; [done|].
  apply get_None in Hn. congruence.
Qed.

Lemma mem_true d k : Dict.mem d k = true <-> k ∈ Dict.keys d.
Proof.
  unfold Dict.mem. destruct (Dict.get d k) eqn:H.
  - split; [eauto using get_Some_keys | done].
  - apply get_None in H. split; [done | intros; contradiction].
Qed.

Lemma mem_false d k : Dict.mem d k = false <-> k ∉ Dict.keys d.
Proof. rewrite <- mem_true. destruct (Dict.mem d k); naive_solver. Qed.

Lemma get_set_eq d k v : Dict.get (Dict.set d k v) k = Some v.
Proof.
  induction d as [|[k' v'] d IH]; simpl.
  - by rewrite decide_True.
  - case_decide as Hk; simpl.
    + by rewrite decide_True.
    + by rewrite decide_False.
Qed.

Lemma get_set_ne d k k' v : k ≠ k' -> Dict.get (Dict.set d k v) k' = Dict.get d k'.
Proof.
  intros Hne. induction d as [|[k'' v''] d IH]; simpl.
  - by rewrite decide_False.
  - case_decide as Hk; simpl.
    + subst. by rewrite !decide_False.
    + by rewrite IH.
Qed.

Lemma keys_set_old d k v : k ∈ Dict.keys d -> Dict.keys (Dict.set d k v) = Dict.keys d.
Proof.
  induction d as [|[k' v'] d IH]; simpl.
  - by intros ?%elem_of_nil.
  - intros Hin. case_decide as Hk; [done|]. simpl. f_equal.
    apply IH. apply elem_of_cons in Hin as [->|]; done.
Qed.

Lemma keys_set_new d k v : k ∉ Dict.keys d -> Dict.keys (Dict.set d k v) = Dict.keys d ++ [k].
Proof.
  induction d as [|[k' v'] d IH]; simpl; [done|].
  intros [Hne Hin]%not_elem_of_cons. rewrite decide_False by done.
  simpl. f_equal. by apply IH.
Qed.

End DictFacts.

(** ** Logger.merge *)

Lemma first_missing_Some d keys k :
  first_missing d keys = Some k -> k ∈ keys /\ k ∉ Dict.keys d.
Proof.
  induction keys as [|k' keys IH]; simpl; [done|].
  destruct (Dict.mem d k') eqn:Hm.
  - intros [??]%IH. split; [by right | done].
  - intros [= ->]. split; [left | by apply mem_false].
Qed.

Lemma first_missing_None d keys :
  first_missing d keys = None <-> keys ⊆ Dict.keys d.
Proof.
  induction keys as [|k' keys IH]; simpl.
  - split; [intros _ ? ?%elem_of_nil; done | done].
  - destruct (Dict.mem d k') eqn:Hm.
    + apply mem_true in Hm. rewrite IH. split.
      * intros H k [->|?]%elem_of_cons; auto.
      * intros H k ?. apply H. by right.
    + apply mem_false in Hm. split; [done|].
      intros H. destruct Hm. apply H. left.
Qed.

Lemma first_lacking_Some keys others k :
  first_lacking keys others = Some k ->
  k ∈ keys /\ exists other, other ∈ others
                       /\ k ∉ Dict.keys (Logger.statisticDct other).
Proof.
  induction others as [|o others IH]; simpl; [done|].
  destruct (first_missing _ keys) as [k'|] eqn:Hm.
  - intros [= ->]. apply first_missing_Some in Hm as [??].
    split; [done|]. exists o. split; [left | done].
  - intros [? (o' & ? & ?)]%IH. split; [done|]. exists o'. split; [by right|done].
Qed.

Lemma first_lacking_None keys others :
  first_lacking keys others = None <->
  forall other, other ∈ others -> keys ⊆ Dict.keys (Logger.statisticDct other).
Proof.
  induction others as [|o others IH]; simpl.
  - split; [intros _ ? ?%elem_of_nil; done | done].
  - destruct (first_missing _ keys) as [k'|] eqn:Hm.
    + split; [done|]. intros H. 
      assert (keys ⊆ Dict.keys (Logger.statisticDct o)) as Hs by (apply H; left).
      apply first_missing_None in Hs. congruence.
    + apply first_missing_None in Hm. rewrite IH. split.
      * intros H o' [->|?]%elem_of_cons; auto.
      * intros H o' ?. apply H. by right.
Qed.

Lemma _merge_body_Err other e items :
  foldl (Logger._merge_body other) (Err e) items = Err e.
Proof. induction items as [|[b s] items IH]; [done|]. by simpl. Qed.

(** The loop of [_merge] over the items of [self.statisticDct] that are
    left, from a [newLogger] that has their keys. *)
Lemma _merge_loop (other newLogger : Logger.t) (items : Dict.t Statistic.t) :
  Dict.keys items ⊆ Dict.keys (Logger.statisticDct newLogger) ->
  match first_missing (Logger.statisticDct other) (Dict.keys items) with
  | Some k =>
      foldl (Logger._merge_body other) (Ok newLogger) items
      = Err (KeyError (KStr k))
  | None =>
      exists d,
        foldl (Logger._merge_body other) (Ok newLogger) items
        = Ok (Logger.set_statisticDct d newLogger)
        /\ Dict.keys d = Dict.keys (Logger.statisticDct newLogger)
  end.
Proof.
  revert newLogger. induction items as [|[b s] items IH]; intros newLogger Hsub.
  - simpl. exists (Logger.statisticDct newLogger). by destruct newLogger.
  - simpl. unfold Dict.getitem, Dict.mem.
    destruct (Dict.get (Logger.statisticDct other) b) as [os|] eqn:Hb; simpl.
    + set (nl := Logger.set_statisticDct _ newLogger).
      assert (Hk : Dict.keys (Logger.statisticDct nl)
                   = Dict.keys (Logger.statisticDct newLogger)).
      { apply keys_set_old. apply Hsub. left. }
      specialize (IH nl). rewrite Hk in IH.
      assert (Dict.keys items ⊆ Dict.keys (Logger.statisticDct newLogger)) as Hs
        by (intros k ?; apply Hsub; by right).
      specialize (IH Hs).
      destruct (first_missing _ _); [done|].
      destruct IH as (d & -> & Hd). exists d. split; [|done].
      by destruct newLogger.
    + apply _merge_body_Err.
Qed.

Lemma _merge_spec (self other : Logger.t) :
  match first_missing (Logger.statisticDct other)
          (Dict.keys (Logger.statisticDct self)) with
  | Some k => Logger._merge self other = Err (KeyError (KStr k))
  | None =>
      exists d, Logger._merge self other = Ok (Logger.set_statisticDct d self)
           /\ Dict.keys d = Dict.keys (Logger.statisticDct self)
  end.
Proof.
  unfold Logger._merge, Logger.copy.
  apply (_merge_loop other self (Logger.statisticDct self)). done.
Qed.

Lemma merge_loop_spec (others : list Logger.t) (curLogger : Logger.t)
    (newLogger : option Logger.t) :
  match first_lacking (Dict.keys (Logger.statisticDct curLogger)) others with
  | Some k => Logger.merge_loop curLogger newLogger others
              = Err (KeyError (KStr k))
  | None =>
      match others with
      | [] => Logger.merge_loop curLogger newLogger others = Ok newLogger
      | _ => exists d, Logger.merge_loop curLogger newLogger others
                       = Ok (Some (Logger.set_statisticDct d curLogger))
                  /\ Dict.keys d = Dict.keys (Logger.statisticDct curLogger)
      end
  end.
Proof.
  revert curLogger newLogger.
  induction others as [|o others IH]; intros cur new; simpl; [done|].
  pose proof (_merge_spec cur o) as Hm.
  destruct (first_missing _ _) as [k|].
  - by rewrite Hm.
  - destruct Hm as (d & -> & Hd). simpl.
    set (nl := Logger.set_statisticDct d cur).
    specialize (IH nl (Some nl)). 
    replace (Dict.keys (Logger.statisticDct nl)) with
      (Dict.keys (Logger.statisticDct cur)) in IH by done.
    destruct (first_lacking _ others); [done|].
    destruct others as [|o' others'].
    + exists d. by rewrite IH.
    + destruct IH as (d' & -> & Hd'). exists d'. split; [|congruence].
      by destruct cur.
Qed.

(** [merge] on two or more loggers: the first block name of the first
    logger that a later logger lacks ends it with a [KeyError]; when there
    is none, the result has the block names of the first logger. *)
Lemma merge_spec (A B : Logger.t) (rest : list Logger.t) :
  match first_lacking (block_names A) (B :: rest) with
  | Some k => Logger.merge (A :: B :: rest) = Err (KeyError (KStr k))
  | None => exists d, Logger.merge (A :: B :: rest)
                      = Ok (Logger.set_statisticDct d A)
                 /\ Dict.keys d = block_names A
  end.
Proof.
  unfold Logger.merge.
  pose proof (merge_loop_spec (B :: rest) A None) as H.
  fold (block_names A) in H.
  destruct (first_lacking _ _) as [k|].
  - by rewrite H.
  - destruct H as (d & -> & Hd). by exists d.
Qed.

Example merge_scenario_sums :
  let A := Logger.set_statisticDct [("x", Statistic.mk (Some "x") 3 1.2 None)]
             (Logger.init true None 3 0) in
  let B := Logger.set_statisticDct [("x", Statistic.mk (Some "x") 2 0.8 None)]
             (Logger.init true None 3 1) in
  Logger.merge [A; B]
  = Ok (Logger.set_statisticDct [("x", Statistic.mk (Some "x") 5 2 None)] A).
Proof. vm_compute. reflexivity. Qed.

(** C2 fails as stated: the statistic tables of [A] and [B] have the block
    names ["x"] and ["x"; "y"], and [merge([A, B])] returns a logger, with
    the block name ["x"] only. *)
Lemma merge_extra_key_counterexample :
  let A := Logger.set_statisticDct [("x", Statistic.mk (Some "x") 3 1.2 None)]
             (Logger.init true None 3 0) in
  let B := Logger.set_statisticDct
             [("x", Statistic.mk (Some "x") 2 0.8 None);
              ("y", Statistic.mk (Some "y") 1 0.5 None)]
             (Logger.init true None 3 1) in
  block_names A = ["x"] /\ block_names B = ["x"; "y"]
  /\ Logger.merge [A; B]
     = Ok (Logger.set_statisticDct [("x", Statistic.mk (Some "x") 5 2 None)] A).
Proof. vm_compute. repeat split. Qed.

(** C2, as amended. On a sequence of two or more loggers, when a later
    logger lacks a block name of the first logger, [merge] raises a
    [KeyError] that names such a block name and returns no logger. When
    every later logger has the block names of the first, [merge] returns
    a logger that has exactly the block names of the first. In
    particular, with the block names [x] and [y] in [A] and [x] alone in
    [B], merging [A], [B] and any more loggers raises [KeyError("y")]. *)
Theorem merge_missing_key (A B : Logger.t) (rest : list Logger.t) :
  ((exists other k, other ∈ B :: rest /\ k ∈ block_names A
                    /\ k ∉ block_names other) ->
   exists other k, Logger.merge (A :: B :: rest) = Err (KeyError (KStr k))
                   /\ other ∈ B :: rest /\ k ∈ block_names A
                   /\ k ∉ block_names other)
  /\ ((forall other, other ∈ B :: rest -> block_names A ⊆ block_names other) ->
      exists d, Logger.merge (A :: B :: rest)
                = Ok (Logger.set_statisticDct d A)
           /\ Dict.keys d = block_names A)
  /\ ((forall k, k ∈ block_names A <-> k = "x" \/ k = "y") ->
      (forall k, k ∈ block_names B <-> k = "x") ->
      Logger.merge (A :: B :: rest) = Err (KeyError (KStr "y"))).
Proof.
  pose proof (merge_spec A B rest) as H.
  split; [|split].
  - intros (o & k & Ho & Hk & Hn).
    destruct (first_lacking _ _) as [k'|] eqn:Hf.
    + apply first_lacking_Some in Hf as (? & o' & ? & ?). by exists o', k'.
    + exfalso. apply Hn. by eapply first_lacking_None.
  - intros Hall. apply first_lacking_None in Hall. by rewrite Hall in H.
  - intros HA HB. simpl in H.
    destruct (first_missing _ _) as [k|] eqn:Hm.
    + apply first_missing_Some in Hm as [Hk Hn].
      apply HA in Hk as [->| ->]; [|done].
      destruct Hn. by apply HB.
    + exfalso. assert ("y" ∈ block_names B) as Hy.
      { eapply first_missing_None; [done|]. apply HA. by right. }
      by apply HB in Hy.
Qed.

(** C2 at the scenario of the specification. *)
Lemma merge_missing_key_witness :
  let A := Logger.set_statisticDct
             [("x", Statistic.mk (Some "x") 3 1.2 None);
              ("y", Statistic.mk (Some "y") 1 0.5 None)]
             (Logger.init true None 3 0) in
  let B := Logger.set_statisticDct [("x", Statistic.mk (Some "x") 2 0.8 None)]
             (Logger.init true None 3 1) in
  Logger.merge [A; B] = Err (KeyError (KStr "y")).
Proof.
  intros A B. destruct (merge_missing_key A B []) as (_ & _ & H). apply H.
  - intros k. unfold A, block_names. simpl. rewrite !elem_of_cons, elem_of_nil.
    tauto.
  - intros k. unfold B, block_names. simpl. rewrite !elem_of_cons, elem_of_nil.
    tauto.
Defined.

(** C10. [merge] on a sequence of exactly one logger does not return it,
    nor any logger: the loop over [others[1:]] ends without running its
    body, [newLogger] is unbound at [return] and an [UnboundLocalError]
    is raised. *)
Theorem merge_single (l : Logger.t) :
  Logger.merge_loop l None [] = Ok None
  /\ Logger.merge [l] = Err (UnboundLocalError "newLogger")
  /\ forall r, Logger.merge [l] <> Ok r.
Proof.
  split; [reflexivity|]. split; [reflexivity|].
  intros r. simpl. discriminate.
Qed.

Example merge_empty : Logger.merge [] = Err IndexError.
Proof. reflexivity. Qed.

(** ** Logger.endBlock on an unregistered identifier *)




(** ** Logger.startBlock *)

Lemma startBlock_spec (block : string) (now : float) (w : World)
    (self : Logger.t) :
  Logger.startBlock block now w self
  = Returns (guid_counter w)
      (mkWorld (guid_counter w + 1) (written w),
       Logger.set_blockDct
         (<[guid_counter w := BlockSpecification.mk (guid_counter w) now block None]>
            (Logger.blockDct self)) self).
Proof. reflexivity. Qed.

Lemma exception_counter msg now self w :
  guid_counter (Logger.exception msg now self w) = guid_counter w.
Proof. unfold Logger.exception. by destruct (_ && _). Qed.

Lemma endBlock_counter guid now w self :
  guid_counter (state_of (Logger.endBlock guid now w self)).1 = guid_counter w.
Proof.
  unfold Logger.endBlock. destruct (_ !! guid); simpl.
  - repeat (case_match; simpl; try done).
  - apply exception_counter.
Qed.

(** A call returns an identifier only from [startBlock], which takes it
    from the counter and increments it; no other call changes the
    counter. *)
Lemma invoke_counter (c : call) (w : World) (self : Logger.t) :
  match c with
  | StartBlock _ _ =>
      result_of (invoke c w self) = Ok (VInt (guid_counter w))
      /\ guid_counter (state_of (invoke c w self)).1 = guid_counter w + 1
  | _ =>
      (forall g, result_of (invoke c w self) <> Ok (VInt g))
      /\ guid_counter (state_of (invoke c w self)).1 = guid_counter w
  end.
Proof.
  destruct c as [b t|g t|]; simpl.
  - done.
  - pose proof (endBlock_counter g t w self) as H.
    destruct (Logger.endBlock g t w self); done.
  - destruct (Logger.performanceDF self); done.
Qed.

Lemma returned_snoc log e : returned (log ++ [e]) = returned log ++ returned [e].
Proof. apply omap_app. Qed.

Lemma fresh_inv_silent g0 w w' log e :
  returned [e] = [] -> guid_counter w' = guid_counter w ->
  fresh_inv g0 w log -> fresh_inv g0 w' (log ++ [e]).
Proof.
  intros He Hw (? & ? & ?). unfold fresh_inv.
  rewrite returned_snoc, He, app_nil_r, Hw. done.
Qed.

Lemma fresh_inv_returned g0 w w' log e :
  returned [e] = [guid_counter w] -> guid_counter w' = guid_counter w + 1 ->
  fresh_inv g0 w log -> fresh_inv g0 w' (log ++ [e]).
Proof.
  intros He Hw (H0 & Hs & Hb). unfold fresh_inv.
  rewrite returned_snoc, He, Hw. split; [lia|split].
  - apply StronglySorted_app_2; [|done|repeat constructor].
    intros x1 x2 Hx1 ->%list_elem_of_singleton.
    rewrite Forall_forall in Hb. apply Hb in Hx1. lia.
  - rewrite Forall_app, Forall_singleton. split; [|lia].
    eapply Forall_impl; [done|]. simpl. lia.
Qed.

Lemma pstep_fresh g0 st c :
  fresh_inv g0 st.1.1 st.2 ->
  fresh_inv g0 (pstep st c).1.1 (pstep st c).2.
Proof.
  destruct st as [[w ls] log]. cbn [fst snd]. intros Hinv.
  destruct c as [r f l t|i c|i|os]; simpl.
  - by apply (fresh_inv_silent g0 w).
  - destruct (ls !! i) as [self|]; cbn [fst snd];
      [|apply (fresh_inv_silent g0 w); [by destruct c|done|done]].
    pose proof (invoke_counter c w self) as Hc.
    destruct c as [b t|g t|]; destruct Hc as [Hr Hw].
    + by apply (fresh_inv_returned g0 w).
    + apply (fresh_inv_silent g0 w); [|done|done].
      simpl. by destruct (Logger.endBlock g t w self).
    + apply (fresh_inv_silent g0 w); [|done|done].
      simpl. by destruct (Logger.performanceDF self).
  - destruct (ls !! i); cbn [fst snd]; by apply (fresh_inv_silent g0 w).
  - destruct (_ <- _ ;; _); cbn [fst snd]; by apply (fresh_inv_silent g0 w).
Qed.

Lemma prun_fresh g0 commands st :
  fresh_inv g0 st.1.1 st.2 ->
  fresh_inv g0 (foldl pstep st commands).1.1 (foldl pstep st commands).2.
Proof.
  revert st. induction commands as [|c commands IH]; intros st H; [done|].
  simpl. apply IH. by apply pstep_fresh.
Qed.

Lemma StronglySorted_lt_NoDup (l : list Z) : StronglySorted Z.lt l -> NoDup l.
Proof.
  induction 1 as [|x l Hs IH Hx]; constructor; [|done].
  intros Hin. rewrite Forall_forall in Hx. apply Hx in Hin. lia.
Qed.

(** C9. [startBlock] always returns, and what it returns is the value of
    the process-wide counter, which it increments. Over any sequence of
    operations on any loggers of a process (creation, [startBlock],
    [endBlock], report, copy, merge) the identifiers returned by
    [startBlock] are strictly increasing in the order of the calls, hence
    distinct, and lie between the initial and the final value of the
    counter. *)
Theorem startBlock_fresh (commands : list command) (w0 : World)
    (loggers0 : list Logger.t) :
  (forall block now w self,
     exists self', Logger.startBlock block now w self
                   = Returns (guid_counter w)
                       (mkWorld (guid_counter w + 1) (written w), self'))
  /\ StronglySorted Z.lt (returned (prun commands w0 loggers0).2)
  /\ NoDup (returned (prun commands w0 loggers0).2)
  /\ Forall (fun g => guid_counter w0 ≤ g
                      < guid_counter (prun commands w0 loggers0).1.1)
            (returned (prun commands w0 loggers0).2).
Proof.
  split; [intros; eexists; apply startBlock_spec|].
  assert (fresh_inv (guid_counter w0) (prun commands w0 loggers0).1.1
            (prun commands w0 loggers0).2) as (? & ? & ?).
  { apply prun_fresh. repeat split; [simpl; lia|constructor|constructor]. }
  auto using StronglySorted_lt_NoDup.
Qed.

Example startBlock_fresh_example :
  returned (prun [New true None 3 0; New false None 3 1;
                  On 0 (StartBlock "a" 2); On 1 (StartBlock "a" 3);
                  On 1 (EndBlock 6 4); Copy 1; On 2 (StartBlock "b" 5);
                  On 0 (StartBlock "c" 6); On 7 (StartBlock "c" 6)]
                 (mkWorld 5 []) []).2
  = [5; 6; 7; 8].
Proof. vm_compute. reflexivity. Qed.

(** ** The report on first access *)

#[local] Instance index_le_trans : Transitive index_le.
Proof. intros x y z. unfold index_le. apply transitivity. Qed.

#[local] Instance index_le_total : Total index_le.
Proof. intros x y. unfold index_le. apply total, _. Qed.

Lemma sort_index_sorted (df : DataFrame) :
  StronglySorted index_le (sort_index df).
Proof. apply StronglySorted_merge_sort; apply _. Qed.

Lemma sort_index_perm (df : DataFrame) : sort_index df ≡ₚ df.
Proof. apply merge_sort_Permutation. Qed.

Lemma summarize_values_returns (d : Dict.t Statistic.t) :
  Forall (fun bs => result_of (Statistic.summarize bs.2) = Ok tt) d ->
  Logger.summarize_values d = Returns tt (prod_map id summarized <$> d).
Proof.
  induction 1 as [|[b s] d Hs Hd IH]; [done|].
  simpl in *. unfold summarized at 1. rewrite IH.
  by destruct (Statistic.summarize s) as [[] s'|].
Qed.

Lemma get_elem_of {V} (d : Dict.t V) (k : string) (v : V) :
  Dict.wf d -> (k, v) ∈ d -> Dict.get d k = Some v.
Proof.
  unfold Dict.wf, Dict.keys.
  induction d as [|[k' v'] d IH]; [by intros _ ?%elem_of_nil|].
  rewrite fmap_cons, NoDup_cons. intros [Hk Hd] Hin. simpl in *.
  apply elem_of_cons in Hin as [[= <- <-]|Hin].
  - by rewrite decide_True.
  - rewrite decide_False; [by apply IH|].
    intros ->. apply Hk. apply list_elem_of_fmap. by exists (k, v).
Qed.

Lemma column_items {A} (f : Statistic.t -> A) (d items : Dict.t Statistic.t) :
  (forall bs, bs ∈ items -> Dict.get d bs.1 = Some bs.2) ->
  Logger.column f d (Dict.keys items) = Ok ((fun bs => f bs.2) <$> items).
Proof.
  induction items as [|[b s] items IH]; intros H; [done|].
  pose proof (H (b, s) ltac:(left)) as Hb. simpl in *.
  unfold Dict.getitem. rewrite Hb. simpl.
  rewrite IH; [done|]. intros bs ?. apply H. by right.
Qed.

Lemma column_keys {A} (f : Statistic.t -> A) (d : Dict.t Statistic.t) :
  Dict.wf d ->
  Logger.column f d (Dict.keys d) = Ok ((fun bs => f bs.2) <$> d).
Proof. intros Hd. apply column_items. intros [b s]. by apply get_elem_of. Qed.

Lemma frame_rows (d : Dict.t Statistic.t) :
  frame (Dict.keys d) ((fun bs => Statistic.count bs.2) <$> d)
        ((fun bs => Statistic.mean bs.2) <$> d)
        ((fun bs => Statistic.total bs.2) <$> d)
  = row_of <$> d.
Proof.
  induction d as [|[b s] d IH]; [done|].
  unfold Dict.keys in *. rewrite !fmap_cons. simpl. by rewrite IH.
Qed.

Lemma keys_summarized (d : Dict.t Statistic.t) :
  Dict.keys (prod_map id summarized <$> d) = Dict.keys d.
Proof.
  unfold Dict.keys. rewrite <- list_fmap_compose. apply list_fmap_ext.
  by intros ? [].
Qed.

Lemma keys_rows (d : Dict.t Statistic.t) : (row_of <$> d).*1 = Dict.keys d.
Proof.
  unfold Dict.keys. rewrite <- list_fmap_compose. apply list_fmap_ext.
  by intros ? [].
Qed.

(** C7, as amended. On the first access (nothing is cached), on a
    statistic table with distinct block names on whose statistics
    [summarize()] returns, as it does when every count is below [2^53]
    ([summarize_returns_small]), [performanceDF] summarizes
    every Statistic of the table, stores and returns a frame that is a
    permutation of the rows (block name, count, mean, total) of the
    summarized statistics, one row per block name, with the block names
    in ascending order. *)
Theorem performanceDF_first (self : Logger.t) :
  Logger._performanceDF self = None ->
  Dict.wf (Logger.statisticDct self) ->
  Forall (fun bs => result_of (Statistic.summarize bs.2) = Ok tt)
         (Logger.statisticDct self) ->
  let d := prod_map id summarized <$> Logger.statisticDct self in
  let df := sort_index (row_of <$> d) in
  Logger.performanceDF self
  = Returns df
      (Logger.set_performanceDF (Some df)
         (Logger.set_statisticDct d
            (Logger.set_unpairedBlocks
               (Z.of_nat (size (Logger.blockDct self))) self)))
  /\ df ≡ₚ row_of <$> d
  /\ df.*1 ≡ₚ block_names self
  /\ NoDup df.*1
  /\ StronglySorted String.le df.*1.
Proof.
  intros Hc Hwf Hs d df. split; [|split; [|split; [|split]]].
  - unfold Logger.performanceDF. rewrite Hc. cbv zeta. simpl.
    rewrite summarize_values_returns by done. fold d.
    replace (Dict.keys (Logger.statisticDct self)) with (Dict.keys d)
      by apply keys_summarized.
    assert (Dict.wf d) as Hd.
    { unfold Dict.wf, d. by rewrite keys_summarized. }
    rewrite !column_keys by done. simpl. by rewrite frame_rows.
  - apply sort_index_perm.
  - unfold df. rewrite sort_index_perm, keys_rows. unfold d.
    by rewrite keys_summarized.
  - unfold df. rewrite sort_index_perm, keys_rows. unfold d.
    by rewrite keys_summarized.
  - eapply StronglySorted_fmap; [|apply sort_index_sorted]. done.
Qed.

(** C7 on a table with the block names y, x and z. *)
Lemma performanceDF_first_witness :
  let self :=
    Logger.set_statisticDct
      [("y", Statistic.mk (Some "y") 4 1 None);
       ("x", Statistic.mk (Some "x") 5 2 None);
       ("z", Statistic.mk (Some "z") 0 0 None)]
      (Logger.init true None LEVEL_STATUS 0) in
  exists self',
    Logger.performanceDF self
    = Returns [("x", mkRow 5 (Some 0.4%float) 2);
               ("y", mkRow 4 (Some 0.25%float) 1);
               ("z", mkRow 0 (Some 0%float) 0)] self'.
Proof.
  intros self. eexists.
  refine (proj1 (performanceDF_first self _ _ _)).
  - reflexivity.
  - unfold Dict.wf. simpl. compute_done.
  - repeat constructor.
Defined.

(** C7 fails as stated: on a table that holds a Statistic whose count
    does not convert to a float, the first access raises
    [OverflowError]; it returns no rows and caches no report. *)
Lemma performanceDF_first_counterexample :
  let s := Nat.iter 1024 (fun s => Statistic.merge s s)
             (Statistic.update 1 (Statistic.init (Some "x"))) in
  let self := Logger.set_statisticDct [("x", s)]
                (Logger.init true None LEVEL_STATUS 0) in
  Logger._performanceDF self = None
  /\ result_of (Logger.performanceDF self) = Err OverflowError
  /\ Logger._performanceDF (state_of (Logger.performanceDF self)) = None.
Proof. split; [|split]; vm_compute; reflexivity. Qed.

(** ** The cached report *)

Lemma performanceDF_stores (self self1 : Logger.t) (df : DataFrame) :
  Logger.performanceDF self = Returns df self1 ->
  Logger._performanceDF self1 = Some df.
Proof.
  unfold Logger.performanceDF.
  destruct (Logger._performanceDF self) as [df'|] eqn:Hc.
  - by intros [= <- <-].
  - destruct (Logger.summarize_values _) as [[] d|e d]; [|done]. cbv zeta.
    destruct (_ <- _ ;; _) as [df'|e]; [|done]. by intros [= <- <-].
Qed.

Lemma performanceDF_cached_returns (self : Logger.t) (df : DataFrame) :
  Logger._performanceDF self = Some df ->
  Logger.performanceDF self = Returns df self.
Proof. intros H. unfold Logger.performanceDF. by rewrite H. Qed.

Lemma endBlock_performanceDF guid now w self :
  Logger._performanceDF (state_of (Logger.endBlock guid now w self)).2
  = Logger._performanceDF self.
Proof.
  unfold Logger.endBlock. repeat (case_match; simpl; try done).
Qed.

Lemma invoke_cached (c : call) (w : World) (self : Logger.t) (df : DataFrame) :
  Logger._performanceDF self = Some df ->
  Logger._performanceDF (state_of (invoke c w self)).2 = Some df
  /\ (c = PerformanceDF -> result_of (invoke c w self) = Ok (VFrame df)).
Proof.
  intros H. destruct c as [b t|g t|]; simpl.
  - done.
  - pose proof (endBlock_performanceDF g t w self) as He.
    destruct (Logger.endBlock g t w self); simpl in *; split; congruence.
  - by rewrite (performanceDF_cached_returns self df).
Qed.

Lemma run_cached (df : DataFrame) (calls : list call)
    (st : World * Logger.t * list entry) :
  Logger._performanceDF st.1.2 = Some df ->
  (forall r, (PerformanceDF, r) ∈ st.2 -> r = Ok (VFrame df)) ->
  Logger._performanceDF (foldl step st calls).1.2 = Some df
  /\ (forall r, (PerformanceDF, r) ∈ (foldl step st calls).2 ->
      r = Ok (VFrame df)).
Proof.
  revert st. induction calls as [|c calls IH]; intros [[w self] log] Hc Hl;
    [done|].
  simpl. apply IH; simpl in *.
  - by apply invoke_cached.
  - intros r [Hin|Hin%list_elem_of_singleton]%elem_of_app; [by apply Hl|].
    injection Hin as <- ->. by apply invoke_cached.
Qed.

(** C8. Once [performanceDF] has returned a frame, it returns the same
    frame after any sequence of [startBlock], [endBlock] and report
    calls, and every report call of the sequence returned that frame. *)
Theorem performanceDF_cached (self self1 : Logger.t) (df : DataFrame)
    (calls : list call) (w : World) :
  Logger.performanceDF self = Returns df self1 ->
  Logger.performanceDF (run calls w self1).1.2
  = Returns df (run calls w self1).1.2
  /\ (forall r, (PerformanceDF, r) ∈ (run calls w self1).2 ->
      r = Ok (VFrame df)).
Proof.
  intros H%performanceDF_stores.
  destruct (run_cached df calls (w, self1, [])) as [Hc Hl]; [done| |].
  { by intros r ?%elem_of_nil. }
  split; [by apply performanceDF_cached_returns | done].
Qed.

(** C8 on a logger that times two more spans after its first report: the
    statistics move on and the report does not. *)
Lemma performanceDF_cached_witness :
  let df := [("x", mkRow 1 (Some 1%float) 1)] in
  let self1 := Logger.set_performanceDF (Some df)
                 (Logger.set_statisticDct
                    [("x", Statistic.mk (Some "x") 1 1 (Some 1%float))]
                    cached_example) in
  let calls := [StartBlock "y" 3; StartBlock "x" 4; EndBlock 2 6;
                EndBlock 1 7; PerformanceDF] in
  Logger.statisticDct (run calls (mkWorld 1 []) self1).1.2
  = [("x", Statistic.mk (Some "x") 2 3 (Some 1%float));
     ("y", Statistic.mk (Some "y") 1 4 None)]
  /\ Logger.performanceDF (run calls (mkWorld 1 []) self1).1.2
     = Returns df (run calls (mkWorld 1 []) self1).1.2.
Proof.
  intros df self1 calls. split; [vm_compute; reflexivity|].
  apply (performanceDF_cached cached_example self1 df calls (mkWorld 1 [])).
  vm_compute. reflexivity.
Defined.

(** ** Logs *)

Lemma opened_snoc log e : opened (log ++ [e]) = opened log ++ opened [e].
Proof. apply omap_app. Qed.

Lemma ended_snoc log e : ended (log ++ [e]) = ended log ++ ended [e].
Proof. apply omap_app. Qed.

Lemma matched_from_snoc seen rest e :
  matched_from seen (rest ++ [e])
  <-> matched_from seen rest /\ matched_from (seen ++ rest) [e].
Proof.
  revert seen. induction rest as [|e' rest IH]; intros seen.
  - rewrite (app_nil_r seen). simpl. tauto.
  - simpl. rewrite IH, <- app_assoc. simpl. tauto.
Qed.

Lemma closed_from_snoc seen rest e :
  closed_from seen (rest ++ [e])
  = closed_from seen rest ++ closed_from (seen ++ rest) [e].
Proof.
  revert seen. induction rest as [|e' rest IH]; intros seen.
  - by rewrite (app_nil_r seen).
  - simpl. by rewrite IH, <- !app_assoc.
Qed.

Lemma durations_snoc block log e :
  durations block (log ++ [e])
  = durations block log
    ++ (filter (fun c : string * float => c.1 = block) (closed_from log [e])).*2.
Proof.
  unfold durations, closed. by rewrite closed_from_snoc, filter_app, fmap_app.
Qed.

Lemma fsum_snoc l x : fsum (l ++ [x]) = (fsum l + x)%float.
Proof. unfold fsum. by rewrite foldl_snoc. Qed.

Lemma span_of_snoc_eq guid span log e :
  opened [e] = [(guid, span)] -> guid ∉ (opened log).*1 ->
  span_of guid (log ++ [e]) = Some span.
Proof.
  intros He Hg. unfold span_of. rewrite opened_snoc, He.
  rewrite list_to_map_snoc by done. apply lookup_insert_eq.
Qed.

Lemma span_of_snoc_ne guid guid' span log e :
  opened [e] = [(guid, span)] -> guid ∉ (opened log).*1 -> guid ≠ guid' ->
  span_of guid' (log ++ [e]) = span_of guid' log.
Proof.
  intros He Hg Hne. unfold span_of. rewrite opened_snoc, He.
  rewrite list_to_map_snoc by done. by apply lookup_insert_ne.
Qed.

Lemma span_of_snoc_silent guid log e :
  opened [e] = [] -> span_of guid (log ++ [e]) = span_of guid log.
Proof.
  intros He. unfold span_of. by rewrite opened_snoc, He, app_nil_r.
Qed.

Lemma span_of_opened guid log :
  guid ∈ (opened log).*1 -> is_Some (span_of guid log).
Proof.
  intros Hg. unfold span_of.
  destruct (list_to_map (opened log) !! guid) eqn:H; [done|].
  by apply not_elem_of_list_to_map in H.
Qed.

(** ** Logger.endBlock on a registered identifier *)

Lemma set_set {V} (d : Dict.t V) (k : string) (v v' : V) :
  Dict.set (Dict.set d k v) k v' = Dict.set d k v'.
Proof.
  induction d as [|[k' v''] d IH]; simpl.
  - by rewrite decide_True.
  - case_decide; simpl.
    + by rewrite decide_True.
    + rewrite decide_False by done. by rewrite IH.
Qed.

Lemma endBlock_registered (guid : Z) (now : float) (w : World)
    (self : Logger.t) (spec : BlockSpecification.t) :
  Logger.blockDct self !! guid = Some spec ->
  BlockSpecification.guid spec = guid ->
  let block := BlockSpecification.block spec in
  let value := (now - BlockSpecification.startTime spec)%float in
  let statistic :=
    default (Statistic.init (Some block))
            (Dict.get (Logger.statisticDct self) block) in
  Logger.endBlock guid now w self
  = Returns tt
      (w, Logger.set_blockDct (delete guid (Logger.blockDct self))
            (Logger.set_statisticDct
               (Dict.set (Logger.statisticDct self) block
                  (Statistic.update value statistic))
               self)).
Proof.
  intros Hspec Hguid block value statistic.
  unfold Logger.endBlock. rewrite Hspec. cbv zeta.
  change (BlockSpecification.block (BlockSpecification.setDuration now spec))
    with block.
  change (BlockSpecification.guid (BlockSpecification.setDuration now spec))
    with (BlockSpecification.guid spec).
  change (BlockSpecification.duration (BlockSpecification.setDuration now spec))
    with (Some value).
  rewrite Hguid. unfold Dict.mem, Dict.getitem, statistic.
  destruct self as [r f t0 lv u bd pf sd]. simpl.
  destruct (Dict.get sd block) as [s|] eqn:Hs; simpl.
  - rewrite Hs, lookup_insert_eq. simpl. by rewrite delete_insert_eq.
  - rewrite get_set_eq, lookup_insert_eq. simpl.
    by rewrite set_set, delete_insert_eq.
Qed.

(** ** The report leaves counts and totals alone *)

Lemma summarize_same_sums (s : Statistic.t) :
  same_sums s (state_of (Statistic.summarize s)).
Proof.
  unfold same_sums, Statistic.summarize. case_decide; [done|].
  by destruct (Py.truediv _ _).
Qed.

Lemma summarize_values_same_sums (d : Dict.t Statistic.t) :
  Forall2 (fun x y => y.1 = x.1 /\ same_sums x.2 y.2)
          d (state_of (Logger.summarize_values d)).
Proof.
  induction d as [|[b s] d IH]; simpl; [constructor|].
  pose proof (summarize_same_sums s) as Hs.
  destruct (Statistic.summarize s) as [[] s'|e s']; simpl in *.
  - destruct (Logger.summarize_values d) as [[] d'|e d']; simpl in *;
      by constructor.
  - constructor; [done|]. apply Forall2_same_length_lookup_2; [done|].
    intros i x y ? ?. simplify_eq. split; [done|]. by repeat split.
Qed.

Lemma get_same_sums (d d' : Dict.t Statistic.t) (block : string) :
  Forall2 (fun x y => y.1 = x.1 /\ same_sums x.2 y.2) d d' ->
  option_Forall2 same_sums (Dict.get d block) (Dict.get d' block).
Proof.
  induction 1 as [|[b s] [b' s'] d d' [Hb Hs] Hd IH]; simpl in *.
  - constructor.
  - subst b'. case_decide; [by constructor | done].
Qed.

Lemma performanceDF_frame (self : Logger.t) :
  Logger.blockDct (state_of (Logger.performanceDF self))
  = Logger.blockDct self
  /\ Forall2 (fun x y => y.1 = x.1 /\ same_sums x.2 y.2)
       (Logger.statisticDct self)
       (Logger.statisticDct (state_of (Logger.performanceDF self))).
Proof.
  assert (Hrefl : Forall2 (fun x y : string * Statistic.t =>
                             y.1 = x.1 /\ same_sums x.2 y.2)
                    (Logger.statisticDct self) (Logger.statisticDct self)).
  { apply Forall2_same_length_lookup_2; [done|].
    intros i x y ? ?. simplify_eq. by repeat split. }
  unfold Logger.performanceDF.
  destruct (Logger._performanceDF self); [done|].
  pose proof (summarize_values_same_sums (Logger.statisticDct self)) as Hs.
  destruct (Logger.summarize_values _) as [[] d|e d]; simpl in *; [|done].
  by destruct (_ <- _ ;; _).
Qed.

Lemma accumulated_same_sums block log s s' :
  option_Forall2 same_sums s s' ->
  accumulated block log s -> accumulated block log s'.
Proof.
  destruct 1 as [s s' (Hb & Hc & Ht)|]; [|done].
  unfold accumulated. rewrite Hb, Hc, Ht. done.
Qed.

(** ** The invariant of a run *)

Lemma timing_inv_init isReport toFile logLevel now w :
  timing_inv w (Logger.init isReport toFile logLevel now) [].
Proof.
  split; simpl.
  - constructor.
  - constructor.
  - done.
  - intros g. rewrite lookup_empty. unfold span_of. simpl.
    by rewrite lookup_empty.
  - done.
  - by intros ??? ?%elem_of_nil.
Qed.

Lemma invoke_startBlock block now w self :
  invoke (StartBlock block now) w self
  = Returns (VInt (guid_counter w))
      (mkWorld (guid_counter w + 1) (written w),
       Logger.set_blockDct
         (<[guid_counter w := live_spec (guid_counter w) (block, now)]>
            (Logger.blockDct self)) self).
Proof. reflexivity. Qed.

Lemma timing_inv_startBlock w self log block now :
  timing_inv w self log ->
  timing_inv (state_of (invoke (StartBlock block now) w self)).1
             (state_of (invoke (StartBlock block now) w self)).2
             (log ++ [(StartBlock block now,
                       result_of (invoke (StartBlock block now) w self))]).
Proof.
  intros [Hf Hn He Hl Hs Hr]. rewrite invoke_startBlock.
  cbn [state_of result_of]. set (g := guid_counter w).
  set (e := (StartBlock block now, Ok (VInt g)) : entry).
  assert (Hg : g ∉ (opened log).*1).
  { intros Hin. rewrite Forall_forall in Hf. apply Hf in Hin. unfold g in Hin. lia. }
  assert (Ho : opened [e] = [(g, (block, now))]) by done.
  assert (Hen : ended [e] = []) by done.
  split; cbn [fst snd guid_counter Logger.blockDct Logger.statisticDct
              Logger.set_blockDct].
  - rewrite opened_snoc, Ho, fmap_app. apply Forall_app. split.
    + eapply Forall_impl; [done|]. simpl. lia.
    + constructor; [simpl; lia | constructor].
  - rewrite opened_snoc, Ho, fmap_app. apply NoDup_app. split; [done|].
    split; [|apply NoDup_singleton].
    intros x Hx ->%list_elem_of_singleton. done.
  - rewrite ended_snoc, opened_snoc, fmap_app, Hen, app_nil_r.
    intros x Hx. apply elem_of_app. left. by apply He.
  - intros g'. rewrite ended_snoc, Hen, app_nil_r.
    destruct (decide (g = g')) as [<-|Hne].
    + rewrite lookup_insert_eq.
      rewrite decide_False by (intros Hin; by apply Hg, He).
      by rewrite (span_of_snoc_eq g (block, now)).
    + rewrite lookup_insert_ne by done.
      rewrite (span_of_snoc_ne g g' (block, now)) by done. apply Hl.
  - intros b. unfold accumulated. rewrite durations_snoc.
    change (closed_from log [e]) with (@nil (string * float)).
    rewrite app_nil_r. apply Hs.
  - intros g' t r [Hin|Hin%list_elem_of_singleton]%elem_of_app; [eauto|done].
Qed.

Lemma timing_inv_performanceDF w self log :
  timing_inv w self log ->
  timing_inv (state_of (invoke PerformanceDF w self)).1
             (state_of (invoke PerformanceDF w self)).2
             (log ++ [(PerformanceDF, result_of (invoke PerformanceDF w self))]).
Proof.
  intros [Hf Hn He Hl Hs Hr].
  destruct (performanceDF_frame self) as [Hb Hd].
  assert (Hst : (state_of (invoke PerformanceDF w self))
                = (w, state_of (Logger.performanceDF self))).
  { simpl. by destruct (Logger.performanceDF self). }
  rewrite Hst. cbn [fst snd].
  set (e := (PerformanceDF, _) : entry).
  assert (Ho : opened [e] = []) by done.
  assert (Hen : ended [e] = []) by done.
  split.
  - by rewrite opened_snoc, Ho, app_nil_r.
  - by rewrite opened_snoc, Ho, app_nil_r.
  - by rewrite opened_snoc, ended_snoc, Ho, Hen, !app_nil_r.
  - intros g. rewrite Hb, ended_snoc, Hen, app_nil_r.
    rewrite span_of_snoc_silent by done. apply Hl.
  - intros b. eapply accumulated_same_sums; [by apply get_same_sums|].
    unfold accumulated. rewrite durations_snoc.
    change (closed_from log [e]) with (@nil (string * float)).
    rewrite app_nil_r. apply Hs.
  - intros g' t r [Hin|Hin%list_elem_of_singleton]%elem_of_app; [eauto|done].
Qed.

Lemma timing_inv_endBlock w self log guid now :
  timing_inv w self log ->
  guid ∈ (opened log).*1 -> guid ∉ ended log ->
  result_of (invoke (EndBlock guid now) w self) = Ok VNone
  /\ timing_inv (state_of (invoke (EndBlock guid now) w self)).1
                (state_of (invoke (EndBlock guid now) w self)).2
                (log ++ [(EndBlock guid now,
                          result_of (invoke (EndBlock guid now) w self))]).
Proof.
  intros [Hf Hn He Hl Hs Hr] Hopen Hnot.
  destruct (span_of_opened guid log Hopen) as [[block start] Hspan].
  pose proof (Hl guid) as Hlive.
  rewrite decide_False, Hspan in Hlive by done. simpl in Hlive.
  unfold invoke.
  rewrite (endBlock_registered guid now w self _ Hlive eq_refl).
  cbn [state_of result_of fst snd BlockSpecification.block
       BlockSpecification.startTime live_spec].
  split; [done|].
  set (e := (EndBlock guid now, Ok VNone) : entry).
  assert (Ho : opened [e] = []) by done.
  assert (Hen : ended [e] = [guid]) by done.
  assert (Hcl : closed_from log [e] = [(block, (now - start)%float)]).
  { simpl. by rewrite Hspan. }
  split; cbn [Logger.blockDct Logger.statisticDct Logger.set_blockDct
              Logger.set_statisticDct].
  - by rewrite opened_snoc, Ho, app_nil_r.
  - by rewrite opened_snoc, Ho, app_nil_r.
  - rewrite opened_snoc, ended_snoc, Ho, Hen, app_nil_r.
    intros x [Hx| ->%list_elem_of_singleton]%elem_of_app; [by apply He|done].
  - intros g. rewrite ended_snoc, Hen, span_of_snoc_silent by done.
    destruct (decide (guid = g)) as [<-|Hne].
    + rewrite lookup_delete_eq. rewrite decide_True; [done|].
      apply elem_of_app. right. by apply list_elem_of_singleton.
    + rewrite lookup_delete_ne, Hl by done.
      destruct (decide (g ∈ ended log)) as [Hin|Hin].
      * rewrite decide_True; [done|]. apply elem_of_app. by left.
      * rewrite decide_False; [done|].
        intros [?| ?%list_elem_of_singleton]%elem_of_app; done.
  - intros b. unfold accumulated. rewrite durations_snoc, Hcl.
    destruct (decide (block = b)) as [<-|Hne].
    + rewrite get_set_eq, filter_cons_True, filter_nil by done.
      specialize (Hs block). unfold accumulated in *.
      change ([(block, (now - start)%float)].*2) with [(now - start)%float].
      rewrite length_app, fsum_snoc. simpl.
      destruct (Dict.get (Logger.statisticDct self) block) as [s|]; simpl.
      * destruct Hs as (? & -> & -> & ?). repeat split; [|lia|done].
        by destruct (durations block log).
      * rewrite Hs. repeat split; done.
    + rewrite get_set_ne, filter_cons_False, filter_nil by done.
      simpl. rewrite app_nil_r. apply Hs.
  - intros g' t r [Hin|Hin%list_elem_of_singleton]%elem_of_app; [eauto|].
    by injection Hin.
Qed.

Lemma timing_inv_step w self log c :
  timing_inv w self log ->
  matched_from log [(c, result_of (invoke c w self))] ->
  timing_inv (state_of (invoke c w self)).1 (state_of (invoke c w self)).2
             (log ++ [(c, result_of (invoke c w self))]).
Proof.
  intros Hinv Hm. destruct c as [b t|g t|].
  - by apply timing_inv_startBlock.
  - destruct Hm as [[??] _]. by apply timing_inv_endBlock.
  - by apply timing_inv_performanceDF.
Qed.

Lemma run_snoc calls c w self :
  run (calls ++ [c]) w self = step (run calls w self) c.
Proof. unfold run. apply foldl_snoc. Qed.

Lemma timing_inv_run isReport toFile logLevel now w calls :
  matched (run calls w (Logger.init isReport toFile logLevel now)).2 ->
  timing_inv (run calls w (Logger.init isReport toFile logLevel now)).1.1
             (run calls w (Logger.init isReport toFile logLevel now)).1.2
             (run calls w (Logger.init isReport toFile logLevel now)).2.
Proof.
  induction calls as [|c calls IH] using rev_ind.
  - intros _. apply timing_inv_init.
  - rewrite run_snoc.
    destruct (run calls w _) as [[w' self'] log]. cbn [step fst snd] in *.
    intros [Hm He]%matched_from_snoc. by apply timing_inv_step; [apply IH|].
Qed.

(** C3. [endBlock] on the identifier of a live span creates the Statistic
    of the span's block name if it is absent, adds one to its count and
    the measured duration to its total, and removes the span from the
    live-span table. After any sequence of calls on a new logger in which
    every [endBlock] is given an identifier that an earlier [startBlock]
    returned and no earlier [endBlock] was given, the Statistic stored
    for a block name has for count the number of spans closed for that
    name and for total the sum of their durations, added in the order of
    the [endBlock] calls; a block name with no closed span has no
    Statistic; every [endBlock] returned; and the live-span table holds
    the identifiers returned and not yet ended. *)
Theorem endBlock_accumulates (isReport : bool) (toFile : option string)
    (logLevel : Z) (now0 : float) (w0 : World) (calls : list call) :
  (forall guid now w self spec,
     Logger.blockDct self !! guid = Some spec ->
     BlockSpecification.guid spec = guid ->
     let block := BlockSpecification.block spec in
     let value := (now - BlockSpecification.startTime spec)%float in
     let statistic :=
       default (Statistic.init (Some block))
               (Dict.get (Logger.statisticDct self) block) in
     Logger.endBlock guid now w self
     = Returns tt
         (w, Logger.set_blockDct (delete guid (Logger.blockDct self))
               (Logger.set_statisticDct
                  (Dict.set (Logger.statisticDct self) block
                     (Statistic.update value statistic))
                  self)))
  /\ let st := run calls w0 (Logger.init isReport toFile logLevel now0) in
     (matched st.2 ->
      (forall block,
         match Dict.get (Logger.statisticDct st.1.2) block with
         | Some s =>
             Statistic.count s = Z.of_nat (length (durations block st.2))
             /\ Statistic.total s = fsum (durations block st.2)
             /\ durations block st.2 <> []
         | None => durations block st.2 = []
         end)
      /\ (forall guid now r, (EndBlock guid now, r) ∈ st.2 -> r = Ok VNone)
      /\ (forall guid,
            is_Some (Logger.blockDct st.1.2 !! guid)
            <-> guid ∈ (opened st.2).*1 /\ guid ∉ ended st.2)).
Proof.
  split; [apply endBlock_registered|].
  intros st Hm. apply timing_inv_run in Hm. fold st in Hm.
  destruct Hm as [Hf Hn He Hl Hs Hr]. split; [|split; [done|]].
  - intros block. specialize (Hs block). unfold accumulated in Hs.
    destruct (Dict.get _ block); [tauto|done].
  - intros guid. rewrite Hl. case_decide as Hin.
    + split; [by intros []|tauto].
    + rewrite fmap_is_Some. split.
      * intros Hsome. split; [|done].
        destruct (decide (guid ∈ (opened st.2).*1)) as [|Hno]; [done|].
        apply not_elem_of_list_to_map in Hno. unfold span_of in Hsome.
        rewrite Hno in Hsome. by destruct Hsome.
      * intros [? _]. by apply span_of_opened.
Qed.

Lemma timed_run_matched : matched timed_run.2.
Proof.
  assert (Hlog : timed_run.2
                 = [(StartBlock "x" 1, Ok (VInt 5));
                    (StartBlock "y" 2, Ok (VInt 6));
                    (StartBlock "x" 3, Ok (VInt 7));
                    (EndBlock 7 4.5, Ok VNone);
                    (PerformanceDF,
                     Ok (VFrame [("x", mkRow 1 (Some 1.5%float) 1.5)]));
                    (EndBlock 5 4.5, Ok VNone);
                    (EndBlock 6 8, Ok VNone)])
    by (vm_compute; reflexivity).
  rewrite Hlog. unfold matched. cbn.
  repeat split; try (apply (bool_decide_unpack _); vm_compute; reflexivity).
Qed.

(** C3 on a run of three spans of the blocks x and y. *)
Lemma endBlock_accumulates_witness :
  durations "x" timed_run.2 = [1.5%float; 3.5%float]
  /\ durations "y" timed_run.2 = [6%float]
  /\ match Dict.get (Logger.statisticDct timed_run.1.2) "x" with
     | Some s => Statistic.count s = 2 /\ Statistic.total s = 5%float
     | None => False
     end.
Proof.
  split; [vm_compute; reflexivity|]. split; [vm_compute; reflexivity|].
  destruct (endBlock_accumulates true None LEVEL_STATUS 0 (mkWorld 5 [])
              timed_calls) as [_ H].
  destruct (H timed_run_matched) as (H' & _ & _).
  specialize (H' "x"). fold timed_run in H'.
  destruct (Dict.get (Logger.statisticDct timed_run.1.2) "x") as [s|].
  - destruct H' as (-> & -> & _). split; vm_compute; reflexivity.
  - vm_compute in H'. discriminate.
Defined.

(** ** Equality of floats *)

Lemma SFeqb_same (a b : spec_float) : SFeqb a b = true <-> SFsame a b.
Proof.
  unfold SFeqb.
  destruct a as [s1|s1| |s1 m1 e1], b as [s2|s2| |s2 m2 e2]; simpl;
    try (destruct s1; done); try (destruct s2; done); try done.
  - destruct s1, s2; split; done.
  - destruct s1, s2; try (split; [done|intros (? & _); done]).
    + destruct (Z.compare_spec e1 e2) as [->|?|?];
        [|split; [done|intros (_ & _ & ?); lia]..].
      change (Pos.compare_cont Eq m1 m2) with (Pos.compare m1 m2).
      destruct (Pos.compare_spec m1 m2) as [->|?|?]; simpl;
        [done|split; [done|intros (_ & ? & _); lia]..].
    + destruct (Z.compare_spec e1 e2) as [->|?|?];
        [|split; [done|intros (_ & _ & ?); lia]..].
      change (Pos.compare_cont Eq m1 m2) with (Pos.compare m1 m2).
      destruct (Pos.compare_spec m1 m2) as [->|?|?]; simpl;
        [done|split; [done|intros (_ & ? & _); lia]..].
Qed.

Lemma SFsame_sym a b : SFsame a b -> SFsame b a.
Proof. destruct a, b; simpl; intuition congruence. Qed.

Lemma SFsame_trans a b c : SFsame a b -> SFsame b c -> SFsame a c.
Proof. destruct a, b, c; simpl; intuition congruence. Qed.

Lemma float_eqb_same (x y : float) :
  PrimFloat.eqb x y = true <-> SFsame (Prim2SF x) (Prim2SF y).
Proof. rewrite FloatAxioms.eqb_spec. apply SFeqb_same. Qed.

Lemma float_eqb_sym (x y : float) : PrimFloat.eqb x y = PrimFloat.eqb y x.
Proof.
  apply eq_true_iff_eq. rewrite !float_eqb_same.
  split; apply SFsame_sym.
Qed.

Lemma float_eqb_trans (x y z : float) :
  PrimFloat.eqb x y = true -> PrimFloat.eqb y z = true ->
  PrimFloat.eqb x z = true.
Proof. rewrite !float_eqb_same. apply SFsame_trans. Qed.

(** ** Statistic.equals *)

Lemma eq_mean_sym a b : Statistic.eq_mean a b = Statistic.eq_mean b a.
Proof. destruct a, b; simpl; auto using float_eqb_sym. Qed.

Lemma eq_mean_trans a b c :
  Statistic.eq_mean a b = true -> Statistic.eq_mean b c = true ->
  Statistic.eq_mean a c = true.
Proof. destruct a, b, c; simpl; eauto using float_eqb_trans; done. Qed.

Lemma equals_true (a b : Statistic.t) :
  Statistic.equals a b = true
  <-> Statistic.count a = Statistic.count b
      /\ PrimFloat.eqb (Statistic.total a) (Statistic.total b) = true
      /\ Statistic.eq_mean (Statistic.mean a) (Statistic.mean b) = true.
Proof.
  unfold Statistic.equals. cbv zeta. rewrite !andb_true_iff, Z.eqb_eq. tauto.
Qed.

Lemma float_not_nan (x : float) : x <> nan <-> Prim2SF x <> S754_nan.
Proof.
  split; intros H Hn; apply H.
  - apply Prim2SF_inj. by rewrite Hn.
  - by rewrite Hn.
Qed.

Lemma float_eqb_refl (x : float) : PrimFloat.eqb x x = true <-> x <> nan.
Proof.
  rewrite float_eqb_same, float_not_nan.
  destruct (Prim2SF x); simpl; split; done.
Qed.

(** X1. [Statistic.equals] is symmetric and transitive, but reflexive only
    away from NaN: a Statistic equals itself exactly when neither its total
    nor its mean is NaN. *)
Theorem equals_partial_equivalence (a b c : Statistic.t) :
  Statistic.equals a b = Statistic.equals b a
  /\ (Statistic.equals a b = true -> Statistic.equals b c = true ->
      Statistic.equals a c = true)
  /\ (Statistic.equals a a = true
      <-> Statistic.total a <> nan /\ Statistic.mean a <> Some nan).
Proof.
  split; [|split].
  - unfold Statistic.equals. cbv zeta.
    by rewrite Z.eqb_sym, float_eqb_sym, eq_mean_sym.
  - rewrite !equals_true. intros (? & ? & ?) (? & ? & ?).
    split; [congruence|]. eauto using float_eqb_trans, eq_mean_trans.
  - rewrite equals_true, float_eqb_refl.
    destruct (Statistic.mean a) as [m|]; simpl.
    + rewrite float_eqb_refl. split.
      * intros (_ & ? & ?). split; congruence.
      * intros [? Hm]. repeat split; [done|]. intros ->. done.
    + split; [intros (_ & ? & _); done | intros [? _]; done].
Qed.

(** X2. A Statistic whose mean is unset is not [equals] to what
    [summarize()] makes of it, in either order, although count and total
    are the same. *)
Theorem equals_summarized (s s' : Statistic.t) :
  Statistic.mean s = None ->
  Statistic.summarize s = Returns tt s' ->
  Statistic.equals s s' = false /\ Statistic.equals s' s = false
  /\ Statistic.count s' = Statistic.count s
  /\ Statistic.total s' = Statistic.total s.
Proof.
  intros Hm Hs.
  assert (exists m, Statistic.mean s' = Some m) as [m Hm'].
  { unfold Statistic.summarize in Hs. case_decide.
    - injection Hs as <-. by eexists.
    - destruct (Py.truediv _ _); [|done]. injection Hs as <-. by eexists. }
  pose proof (summarize_frame s) as Hf. rewrite Hs in Hf.
  destruct Hf as (_ & ? & ?).
  unfold Statistic.equals. cbv zeta. rewrite Hm, Hm'. simpl.
  rewrite !andb_false_r. done.
Qed.

Lemma equals_summarized_witness :
  let s := Statistic.mk (Some "x") 5 2 None in
  let s' := Statistic.mk (Some "x") 5 2 (Some 0.4%float) in
  Statistic.equals s s' = false /\ Statistic.equals s' s = false.
Proof.
  intros s s'.
  destruct (equals_summarized s s') as (H1 & H2 & _);
    [reflexivity | vm_compute; reflexivity | ].
  split; [exact H1 | exact H2].
Defined.

Lemma SFadd_same (a a' b b' : spec_float) :
  SFsame a a' -> SFsame b b' ->
  SF64add a b <> S754_nan ->
  SFsame (SF64add a b) (SF64add a' b').
Proof.
  unfold SF64add.
  destruct a as [s1|s1| |s1 m1 e1], a' as [s1'|s1'| |s1' m1' e1']; simpl;
    try done;
  destruct b as [s2|s2| |s2 m2 e2], b' as [s2'|s2'| |s2' m2' e2']; simpl;
    try done;
  intros Ha Hb Hn; destruct_and?; simplify_eq; try done.
  - by destruct s1, s2, s1', s2'.
  - by destruct s1', s2'.
  - by destruct (binary_normalize _ _ _ _ _).
Qed.

Lemma float_add_same (x x' y y' : float) :
  PrimFloat.eqb x x' = true -> PrimFloat.eqb y y' = true ->
  (x + y)%float <> nan ->
  PrimFloat.eqb (x + y) (x' + y') = true.
Proof.
  rewrite !float_eqb_same, float_not_nan, !add_spec. apply SFadd_same.
Qed.

Lemma float_add_0_r (x : float) :
  PrimFloat.eqb (x + 0) x = PrimFloat.eqb x x.
Proof.
  apply eq_true_iff_eq. rewrite !float_eqb_same, add_spec.
  change (Prim2SF 0) with (S754_zero false). unfold SF64add.
  destruct (Prim2SF x) as [[]| | |]; simpl; done.
Qed.

(** X3. [Statistic.merge] respects [equals]: merging statistics that are
    [equals] gives statistics that are [equals], as long as the merged
    total is not NaN. *)
Theorem merge_respects_equals (a a' b b' : Statistic.t) :
  Statistic.equals a a' = true -> Statistic.equals b b' = true ->
  Statistic.total (Statistic.merge a b) <> nan ->
  Statistic.equals (Statistic.merge a b) (Statistic.merge a' b') = true.
Proof.
  rewrite !equals_true. intros (Hc & Ht & Hm) (Hc' & Ht' & _) Hn. simpl in *.
  split; [congruence|]. split; [by apply float_add_same | done].
Qed.

Lemma merge_respects_equals_witness :
  let a := Statistic.mk (Some "x") 3 0 (Some 0%float) in
  let a' := Statistic.mk (Some "y") 3 (-0) (Some (-0)%float) in
  let b := Statistic.mk (Some "x") 2 0.5 None in
  Statistic.equals (Statistic.merge a b) (Statistic.merge a' b) = true.
Proof.
  intros a a' b. apply (merge_respects_equals a a' b b).
  - vm_compute. reflexivity.
  - vm_compute. reflexivity.
  - apply float_not_nan. vm_compute. discriminate.
Defined.

(** X4. A new Statistic is neutral for [merge] on count and total:
    merging it into [s] gives a Statistic [equals] to [s] whenever [s]
    equals itself; merged the other way round the count is that of [s],
    the total is [==] to that of [s] when that is not NaN, and the mean is
    the unset mean of the new Statistic. *)
Theorem merge_init_equals (s : Statistic.t) (block : option string) :
  Statistic.equals (Statistic.merge s (Statistic.init block)) s
  = Statistic.equals s s
  /\ Statistic.count (Statistic.merge (Statistic.init block) s)
     = Statistic.count s
  /\ PrimFloat.eqb (Statistic.total (Statistic.merge (Statistic.init block) s))
                   (Statistic.total s)
     = PrimFloat.eqb (Statistic.total s) (Statistic.total s)
  /\ Statistic.mean (Statistic.merge (Statistic.init block) s) = None.
Proof.
  unfold Statistic.equals, Statistic.copy. cbv zeta. simpl.
  rewrite Z.add_0_r, float_add_0_r.
  rewrite (float_add_comm 0 (Statistic.total s)), float_add_0_r. done.
Qed.

(** ** Logger.join *)

Lemma join_cons (a : string) (rest : list string) :
  rest <> [] -> Logger.join (a :: rest) = a +:+ "/" +:+ Logger.join rest.
Proof. by destruct rest. Qed.

Lemma append_nil_l (b : string) : "" +:+ b = b.
Proof. reflexivity. Qed.

Lemma append_cons (c : ascii) (a b : string) :
  String c a +:+ b = String c (a +:+ b).
Proof. reflexivity. Qed.

Lemma append_nil_r (a : string) : a +:+ "" = a.
Proof.
  induction a as [|x a IH]; [done|]. by rewrite append_cons, IH.
Qed.

Lemma append_assoc (a b c : string) : (a +:+ b) +:+ c = a +:+ (b +:+ c).
Proof.
  induction a as [|x a IH]; [done|]. by rewrite !append_cons, IH.
Qed.

Lemma join_app (xs ys : list string) :
  xs <> [] -> ys <> [] ->
  Logger.join (xs ++ ys) = Logger.join xs +:+ "/" +:+ Logger.join ys.
Proof.
  intros Hx Hy. induction xs as [|x xs IH]; [done|].
  destruct xs as [|x' xs].
  - simpl app. by rewrite join_cons.
  - rewrite <- app_comm_cons, join_cons by (by destruct xs).
    rewrite IH by done. rewrite (join_cons x (x' :: xs)) by done.
    by rewrite !append_assoc.
Qed.

(** X5. [join] of the joins of nonempty groups of segments is [join] of
    all the segments. *)
Theorem join_flatten (groups : list (list string)) :
  Forall (fun g => g <> []) groups ->
  Logger.join (Logger.join <$> groups) = Logger.join (concat groups).
Proof.
  induction 1 as [|g groups Hg Hgs IH]; [done|].
  destruct groups as [|g' groups].
  - simpl. by rewrite app_nil_r.
  - rewrite fmap_cons, join_cons by done. rewrite IH.
    simpl concat. rewrite (join_app g); [done|done|].
    inversion Hgs; subst. by destruct g'.
Qed.

Lemma join_flatten_witness :
  Logger.join [Logger.join ["fit"; "bootstrap"]; Logger.join ["iteration"]]
  = Logger.join ["fit"; "bootstrap"; "iteration"].
Proof.
  apply (join_flatten [["fit"; "bootstrap"]; ["iteration"]]).
  repeat constructor; discriminate.
Defined.

Lemma append_no_slash_inj (x y r r' : string) :
  no_slash x -> no_slash y ->
  (r = "" \/ exists t, r = "/" +:+ t) ->
  (r' = "" \/ exists t, r' = "/" +:+ t) ->
  x +:+ r = y +:+ r' -> x = y /\ r = r'.
Proof.
  revert y. induction x as [|c x IH]; intros [|d y] Hx Hy Hr Hr' Heq;
    rewrite ?append_nil_l, ?append_cons in Heq; simpl in Hx, Hy.
  - done.
  - destruct Hy as [Hd _]. destruct Hr as [->|[t ->]]; [done|].
    rewrite append_cons in Heq. by injection Heq as <- _.
  - destruct Hx as [Hc _]. destruct Hr' as [->|[t ->]]; [done|].
    rewrite append_cons in Heq. by injection Heq as -> _.
  - injection Heq as -> Heq. destruct Hx as [_ Hx], Hy as [_ Hy].
    destruct (IH y Hx Hy Hr Hr' Heq) as [-> ->]. done.
Qed.

Lemma join_tail (a : string) (l : list string) :
  Logger.join (a :: l)
  = a +:+ match l with [] => "" | _ => "/" +:+ Logger.join l end.
Proof. destruct l; [|done]. simpl. by rewrite append_nil_r. Qed.

(** X6. On nonempty lists of segments that hold no [/], [join] is
    injective: the joined name determines the segments. *)
Theorem join_injective (xs ys : list string) :
  xs <> [] -> ys <> [] ->
  Forall no_slash xs -> Forall no_slash ys ->
  Logger.join xs = Logger.join ys -> xs = ys.
Proof.
  revert ys. induction xs as [|x xs IH]; [done|].
  intros [|y ys] _ Hy Hsx Hsy Heq; [done|].
  apply Forall_cons in Hsx as [Hnx Hsx]. apply Forall_cons in Hsy as [Hny Hsy].
  rewrite (join_tail x xs), (join_tail y ys) in Heq.
  apply append_no_slash_inj in Heq as [-> Ht]; [|done|done|..].
  - f_equal. destruct xs as [|x' xs], ys as [|y' ys]; try done.
    apply IH; [done|done|done|done|]. by injection Ht.
  - destruct xs; [by left | right; by eexists].
  - destruct ys; [by left | right; by eexists].
Qed.

Lemma join_injective_witness :
  ["fit"; "bootstrap"] = [String.app "f" "it"; "bootstrap"].
Proof.
  apply (join_injective ["fit"; "bootstrap"] [String.app "f" "it"; "bootstrap"]);
    [done | done | | | reflexivity];
    repeat constructor; discriminate.
Defined.

(** ** The text methods *)

(** A text method of level [level]: it writes one line when reporting is
    on and the log level is at least [level], and nothing otherwise. *)
Lemma written_gated (level : Z) (text : string) (numNL : Z) (now : float)
    (self : Logger.t) (w : World) :
  written (if Logger.isReport self && bool_decide (level ≤ Logger.logLevel self)
           then Logger._write text numNL now self w else w)
  = written w
    ++ (if Logger.isReport self && bool_decide (level ≤ Logger.logLevel self)
        then [mkLine (Logger.toFile self) (now - Logger.startTime self)%float
                     numNL text]
        else []).
Proof. destruct (_ && _); simpl; [done|]. by rewrite app_nil_r. Qed.

Lemma gate_mono (r : bool) (level level' l l' : Z) :
  level' ≤ level -> l ≤ l' ->
  r && bool_decide (level ≤ l) = true -> r && bool_decide (level' ≤ l') = true.
Proof.
  rewrite !andb_true_iff, !bool_decide_eq_true. intros ?? [? ?].
  split; [done|lia].
Qed.

Lemma gated_length_mono (r : bool) (level level' l l' : Z) (x y : Line) :
  level' ≤ level -> l ≤ l' ->
  (length (if r && bool_decide (level ≤ l)%Z then [x] else [])
   ≤ length (if r && bool_decide (level' ≤ l')%Z then [y] else []))%nat.
Proof.
  intros H1 H2. destruct (r && bool_decide (level ≤ l)) eqn:Hg; simpl; [|lia].
  by rewrite (gate_mono r level level' l l' H1 H2 Hg).
Qed.

(** X7. The text methods write at most one line each, and the categories
    are nested: a logger that writes an error writes an exception, one
    that writes an exception writes a status, then a result, then an
    activity. *)
Theorem text_levels_nested (msg excp : string) (now : float)
    (self : Logger.t) (w : World) :
  (length (written w)
   ≤ length (written (Logger.error msg excp now self w)))%nat
  /\ (length (written (Logger.error msg excp now self w))
      ≤ length (written (Logger.exception msg now self w)))%nat
  /\ (length (written (Logger.exception msg now self w))
      ≤ length (written (Logger.status msg now self w)))%nat
  /\ (length (written (Logger.status msg now self w))
      ≤ length (written (Logger.result msg now self w)))%nat
  /\ (length (written (Logger.result msg now self w))
      ≤ length (written (Logger.activity msg now self w)))%nat
  /\ (length (written (Logger.activity msg now self w))
      ≤ length (written w) + 1)%nat.
Proof.
  unfold Logger.error, Logger.exception, Logger.status, Logger.result,
    Logger.activity. cbv zeta.
  rewrite !written_gated, !length_app.
  unfold LEVEL_ERROR, LEVEL_EXCEPTION, LEVEL_STATUS, LEVEL_RESULT,
    LEVEL_ACTIVITY.
  repeat split; try apply Nat.add_le_mono_l;
    try (apply gated_length_mono; lia).
  - lia.
  - destruct (_ && _); simpl; lia.
Qed.

(** X8. Raising [logLevel] never silences a text method: with the same
    [isReport], a logger of a higher level writes whatever one of a lower
    level writes. *)
Theorem text_level_monotone (msg excp : string) (now : float)
    (self self' : Logger.t) (w : World) :
  Logger.isReport self' = Logger.isReport self ->
  Logger.logLevel self ≤ Logger.logLevel self' ->
  (length (written (Logger.activity msg now self w))
   ≤ length (written (Logger.activity msg now self' w)))%nat
  /\ (length (written (Logger.result msg now self w))
      ≤ length (written (Logger.result msg now self' w)))%nat
  /\ (length (written (Logger.status msg now self w))
      ≤ length (written (Logger.status msg now self' w)))%nat
  /\ (length (written (Logger.exception msg now self w))
      ≤ length (written (Logger.exception msg now self' w)))%nat
  /\ (length (written (Logger.error msg excp now self w))
      ≤ length (written (Logger.error msg excp now self' w)))%nat.
Proof.
  intros Hr Hl.
  unfold Logger.error, Logger.exception, Logger.status, Logger.result,
    Logger.activity. cbv zeta.
  rewrite !written_gated, !length_app, Hr.
  repeat split; apply Nat.add_le_mono_l, gated_length_mono; lia.
Qed.

Lemma text_level_monotone_witness :
  let quiet := Logger.init true None LEVEL_ACTIVITY 0 in
  let verbose := Logger.init true None LEVEL_ERROR 0 in
  (length (written (Logger.status "s" 1 quiet (mkWorld 0 [])))
   ≤ length (written (Logger.status "s" 1 verbose (mkWorld 0 []))))%nat.
Proof.
  intros quiet verbose.
  destruct (text_level_monotone "s" "" 1 quiet verbose (mkWorld 0 []))
    as (_ & _ & H & _); [reflexivity | vm_compute; discriminate | exact H].
Defined.

(** ** What the operations write *)

Lemma emitted_by_nil self : emitted_by self [].
Proof. split; [simpl; lia|]. split; [constructor | done]. Qed.

Lemma emitted_by_gated (level : Z) (text : string) (numNL : Z) (now : float)
    (self : Logger.t) :
  emitted_by self
    (if Logger.isReport self && bool_decide (level ≤ Logger.logLevel self)
     then [mkLine (Logger.toFile self) (now - Logger.startTime self)%float
                  numNL text]
     else []).
Proof.
  destruct (Logger.isReport self) eqn:Hr; simpl; [|apply emitted_by_nil].
  destruct (bool_decide _); [|apply emitted_by_nil].
  split; [simpl; lia|]. split; [by repeat constructor|]. by rewrite Hr.
Qed.

Lemma endBlock_written guid now w self :
  config (state_of (Logger.endBlock guid now w self)).2 = config self
  /\ exists lines,
       written (state_of (Logger.endBlock guid now w self)).1
       = written w ++ lines
       /\ emitted_by self lines.
Proof.
  unfold Logger.endBlock. destruct (Logger.blockDct self !! guid) as [spec|].
  - cbv zeta. split; [by repeat case_match|].
    exists []. split; [|apply emitted_by_nil].
    rewrite app_nil_r. by repeat case_match.
  - simpl. split; [done|]. unfold Logger.exception.
    rewrite written_gated. eexists. split; [done|]. apply emitted_by_gated.
Qed.

Lemma performanceDF_config self :
  config (state_of (Logger.performanceDF self)) = config self.
Proof. unfold Logger.performanceDF. by repeat case_match. Qed.

Lemma apply_op_written (o : op) (w : World) (self : Logger.t) :
  config (apply_op o (w, self)).2 = config self
  /\ exists lines,
       written (apply_op o (w, self)).1 = written w ++ lines
       /\ emitted_by self lines.
Proof.
  destruct o as [[b t|g t|]|m t|m t|m t|m t|m e t]; cbn [apply_op fst snd].
  - split; [done|]. exists []. split; [by rewrite app_nil_r|apply emitted_by_nil].
  - unfold invoke. pose proof (endBlock_written g t w self) as H.
    by destruct (Logger.endBlock g t w self).
  - unfold invoke. pose proof (performanceDF_config self) as H.
    destruct (Logger.performanceDF self); simpl in *;
      (split; [done|]); exists [];
      (split; [by rewrite app_nil_r|apply emitted_by_nil]).
  - split; [done|]. unfold Logger.activity. rewrite written_gated.
    eexists. split; [done|]. apply emitted_by_gated.
  - split; [done|]. unfold Logger.result. rewrite written_gated.
    eexists. split; [done|]. apply emitted_by_gated.
  - split; [done|]. unfold Logger.status. rewrite written_gated.
    eexists. split; [done|]. apply emitted_by_gated.
  - split; [done|]. unfold Logger.exception. rewrite written_gated.
    eexists. split; [done|]. apply emitted_by_gated.
  - split; [done|]. unfold Logger.error. cbv zeta. rewrite written_gated.
    eexists. split; [done|]. apply emitted_by_gated.
Qed.

Lemma run_ops_snoc ops o w self :
  run_ops (ops ++ [o]) w self = apply_op o (run_ops ops w self).
Proof. unfold run_ops. by rewrite foldl_snoc. Qed.

(** X9. Over any sequence of text methods, [startBlock], [endBlock] and
    report accesses, the configuration of the logger stays what the
    constructor was given, the text written is only extended, by at most
    one line per operation, every line goes to [toFile], and nothing is
    written when [isReport] is off. *)
Theorem run_ops_written (ops : list op) (w : World) (self : Logger.t) :
  config (run_ops ops w self).2 = config self
  /\ exists lines,
       written (run_ops ops w self).1 = written w ++ lines
       /\ (length lines ≤ length ops)%nat
       /\ Forall (fun l => line_file l = Logger.toFile self) lines
       /\ (Logger.isReport self = false -> lines = []).
Proof.
  induction ops as [|o ops IH] using rev_ind.
  - split; [done|]. exists []. rewrite app_nil_r.
    split; [done|]. split; [simpl; lia|]. split; [constructor | done].
  - rewrite run_ops_snoc. destruct IH as (Hc & lines & Hw & Hlen & Hd & Hs).
    destruct (run_ops ops w self) as [w' self'] eqn:Hrun. simpl in Hc, Hw.
    destruct (apply_op_written o w' self') as (Hc' & ls & Hw' & Hl & Hd' & Hs').
    assert (Hto : Logger.toFile self' = Logger.toFile self)
      by (unfold config in Hc; congruence).
    assert (Hre : Logger.isReport self' = Logger.isReport self)
      by (unfold config in Hc; congruence).
    split; [congruence|]. exists (lines ++ ls).
    rewrite Hw', Hw, app_assoc, !length_app. simpl.
    split; [done|]. split; [lia|]. split.
    + apply Forall_app. split; [done|]. by rewrite <- Hto.
    + intros Hoff. rewrite Hs, Hs' by congruence. done.
Qed.

Example run_ops_example :
  written (run_ops [Status "start" 1; Call (StartBlock "x" 2);
                    Exception "odd" 3; Call (EndBlock 9 4);
                    Call (EndBlock 0 5); Activity "fit" 6]
                   (mkWorld 0 []) (Logger.init true None LEVEL_STATUS 0)).1
  = [mkLine None 1 0 "    (start)"; mkLine None 6 2 "***fit***"].
Proof. vm_compute. reflexivity. Qed.

(** ** What merge puts in the statistic table *)

Lemma _merge_loop_get (other newLogger R : Logger.t)
    (items : Dict.t Statistic.t) :
  NoDup (Dict.keys items) ->
  foldl (Logger._merge_body other) (Ok newLogger) items = Ok R ->
  R = Logger.set_statisticDct (Logger.statisticDct R) newLogger
  /\ forall block,
       Dict.get (Logger.statisticDct R) block
       = match Dict.get items block with
         | Some s =>
             Statistic.merge s <$> Dict.get (Logger.statisticDct other) block
         | None => Dict.get (Logger.statisticDct newLogger) block
         end.
Proof.
  revert newLogger.
  induction items as [|[k s] items IH]; intros newLogger Hnd Hfold.
  - simpl in Hfold. injection Hfold as <-. split; [by destruct newLogger|done].
  - unfold Dict.keys in Hnd. rewrite fmap_cons in Hnd.
    apply NoDup_cons in Hnd as [Hk Hnd]. simpl in Hfold, Hk.
    unfold Dict.getitem in Hfold.
    destruct (Dict.get (Logger.statisticDct other) k) as [o|] eqn:Ho;
      simpl in Hfold; [|by rewrite _merge_body_Err in Hfold].
    apply IH in Hfold as [HR Hget]; [|done]. split.
    + rewrite HR. by destruct newLogger.
    + intros block. rewrite Hget. simpl. case_decide as Hkb.
      * subst block. apply get_None in Hk. rewrite Hk, Ho. simpl.
        apply get_set_eq.
      * destruct (Dict.get items block); [done|]. simpl.
        by apply get_set_ne.
Qed.

Lemma _merge_statistics (self other R : Logger.t) :
  Dict.wf (Logger.statisticDct self) ->
  Logger._merge self other = Ok R ->
  R = Logger.set_statisticDct (Logger.statisticDct R) self
  /\ block_names R = block_names self
  /\ forall block,
       Dict.get (Logger.statisticDct R) block
       = s ← Dict.get (Logger.statisticDct self) block;
         Statistic.merge s <$> Dict.get (Logger.statisticDct other) block.
Proof.
  intros Hwf Hm. pose proof (_merge_spec self other) as Hs.
  unfold Logger._merge, Logger.copy in Hm.
  destruct (_merge_loop_get other self R _ Hwf Hm) as [HR Hget].
  split; [done|]. split.
  - destruct (first_missing _ _).
    + unfold Logger._merge, Logger.copy in Hs. congruence.
    + destruct Hs as (d & Hd & Hk). unfold Logger._merge, Logger.copy in Hd.
      rewrite Hm in Hd. injection Hd as ->. done.
  - intros block. rewrite Hget.
    by destruct (Dict.get (Logger.statisticDct self) block).
Qed.

Lemma _merge_statistics_witness :
  let A := Logger.set_statisticDct
             [("x", Statistic.mk (Some "x") 3 1.2 None);
              ("y", Statistic.mk (Some "y") 1 0.5 None)]
             (Logger.init true None 3 0) in
  let B := Logger.set_statisticDct
             [("y", Statistic.mk (Some "y") 2 0.25 None);
              ("x", Statistic.mk (Some "x") 2 0.8 None);
              ("z", Statistic.mk (Some "z") 7 7 None)]
             (Logger.init false None 5 1) in
  exists R, Logger._merge A B = Ok R
    /\ Dict.get (Logger.statisticDct R) "x"
       = Some (Statistic.mk (Some "x") 5 2 None)
    /\ Dict.get (Logger.statisticDct R) "z" = None.
Proof.
  intros A B. destruct (Logger._merge A B) as [R|] eqn:Hm;
    [|vm_compute in Hm; discriminate].
  exists R. split; [done|].
  destruct (_merge_statistics A B R) as (_ & _ & H); [|exact Hm|].
  { unfold Dict.wf. simpl. compute_done. }
  rewrite !H. split; vm_compute; reflexivity.
Defined.

Lemma merged_statistic_cons block s other others :
  merged_statistic block s (other :: others)
  = s' ← Statistic.merge s <$> Dict.get (Logger.statisticDct other) block;
    merged_statistic block s' others.
Proof.
  unfold merged_statistic. simpl.
  destruct (Dict.get (Logger.statisticDct other) block) as [o|]; simpl; [done|].
  induction others as [|o' others IH]; [done|]. by simpl.
Qed.

Lemma merge_loop_get (rest : list Logger.t) (cur R : Logger.t)
    (new : option Logger.t) :
  rest <> [] ->
  Dict.wf (Logger.statisticDct cur) ->
  Logger.merge_loop cur new rest = Ok (Some R) ->
  R = Logger.set_statisticDct (Logger.statisticDct R) cur
  /\ block_names R = block_names cur
  /\ forall block,
       Dict.get (Logger.statisticDct R) block
       = s ← Dict.get (Logger.statisticDct cur) block;
         merged_statistic block s rest.
Proof.
  revert cur new. induction rest as [|o rest IH]; intros cur new Hne Hwf Hm;
    [done|].
  simpl in Hm. destruct (Logger._merge cur o) as [nl|] eqn:Hnl; [|done].
  simpl in Hm.
  destruct (_merge_statistics cur o nl Hwf Hnl) as (Hnl' & Hk & Hget).
  destruct rest as [|o' rest].
  - simpl in Hm. injection Hm as <-. split; [done|]. split; [done|].
    intros block. rewrite Hget.
    destruct (Dict.get (Logger.statisticDct cur) block); [|done]. simpl.
    rewrite merged_statistic_cons.
    by destruct (Dict.get (Logger.statisticDct o) block).
  - apply IH in Hm as (HR & HkR & HgetR); [|done|].
    + split; [|split].
      * rewrite HR, Hnl'. by destruct cur.
      * congruence.
      * intros block. rewrite HgetR, Hget.
        destruct (Dict.get (Logger.statisticDct cur) block); [|done]. simpl.
        by rewrite (merged_statistic_cons block t o).
    + unfold Dict.wf. fold (block_names nl). rewrite Hk. done.
Qed.

Lemma merge_get (A B R : Logger.t) (rest : list Logger.t) :
  Dict.wf (Logger.statisticDct A) ->
  Logger.merge (A :: B :: rest) = Ok R ->
  R = Logger.set_statisticDct (Logger.statisticDct R) A
  /\ block_names R = block_names A
  /\ forall block,
       Dict.get (Logger.statisticDct R) block
       = s ← Dict.get (Logger.statisticDct A) block;
         merged_statistic block s (B :: rest).
Proof.
  intros Hwf Hm. unfold Logger.merge in Hm.
  destruct (Logger.merge_loop A None (B :: rest)) as [[R'|]|] eqn:Hl;
    simpl in Hm; [|done|done].
  injection Hm as ->. by apply (merge_loop_get (B :: rest) A R None).
Qed.

Lemma merged_statistic_sums block s others r :
  merged_statistic block s others = Some r ->
  Statistic.mean r = Statistic.mean s
  /\ Statistic.block r = Statistic.block s
  /\ Statistic.count r
     = Statistic.count s + foldr Z.add 0 (count_of block <$> others)
  /\ Statistic.total r
     = foldl PrimFloat.add (Statistic.total s) (total_of block <$> others).
Proof.
  revert s. induction others as [|o others IH]; intros s Hm.
  - injection Hm as <-. simpl. repeat split. lia.
  - rewrite merged_statistic_cons in Hm.
    destruct (Dict.get (Logger.statisticDct o) block) as [so|] eqn:Ho;
      [|done].
    assert (Hco : count_of block o = Statistic.count so)
      by (unfold count_of; by rewrite Ho).
    assert (Hto : total_of block o = Statistic.total so)
      by (unfold total_of; by rewrite Ho).
    simpl in Hm. apply IH in Hm as (-> & -> & -> & ->).
    rewrite !fmap_cons. cbn [foldr foldl]. rewrite Hco, Hto. simpl.
    repeat split. lia.
Qed.

(** X10. When [Logger.merge] returns, the result has the block names of
    the first logger, in its order, and the statistic of each is that of
    the first logger merged with the statistics of that name in the later
    loggers, from left to right: the counts are summed, the totals are
    added in that order, and block and mean are those of the first
    logger. *)
Theorem merge_statistics (A B R : Logger.t) (rest : list Logger.t) :
  Dict.wf (Logger.statisticDct A) ->
  Logger.merge (A :: B :: rest) = Ok R ->
  block_names R = block_names A
  /\ forall block s,
       Dict.get (Logger.statisticDct A) block = Some s ->
       exists r,
         Dict.get (Logger.statisticDct R) block = Some r
         /\ merged_statistic block s (B :: rest) = Some r
         /\ Statistic.count r
            = foldr Z.add 0 (count_of block <$> A :: B :: rest)
         /\ Statistic.total r
            = foldl PrimFloat.add (Statistic.total s)
                (total_of block <$> B :: rest)
         /\ Statistic.mean r = Statistic.mean s
         /\ Statistic.block r = Statistic.block s.
Proof.
  intros Hwf Hm.
  destruct (merge_get A B R rest Hwf Hm) as (_ & Hk & Hget).
  split; [done|]. intros block s Hs.
  specialize (Hget block). rewrite Hs in Hget. simpl in Hget.
  destruct (merged_statistic block s (B :: rest)) as [r|] eqn:Hr.
  - exists r. split; [done|]. split; [done|].
    apply merged_statistic_sums in Hr as (? & ? & Hc & Ht).
    assert (Hco : count_of block A = Statistic.count s)
      by (unfold count_of; by rewrite Hs).
    rewrite (fmap_cons (count_of block)). cbn [foldr].
    by rewrite Hco, Hc.
  - exfalso. apply get_None in Hget.
    apply get_Some_keys in Hs. fold (block_names R) in Hget.
    rewrite Hk in Hget. done.
Qed.

Lemma merge_statistics_witness :
  let A := Logger.set_statisticDct
             [("x", Statistic.mk (Some "x") 3 1.2 (Some 0.4%float));
              ("y", Statistic.mk (Some "y") 1 0.5 None)]
             (Logger.init true None 3 0) in
  let B := Logger.set_statisticDct
             [("y", Statistic.mk (Some "y") 2 0.25 None);
              ("x", Statistic.mk (Some "x") 2 0.8 None)]
             (Logger.init false None 5 1) in
  let R := Logger.set_statisticDct
             [("x", Statistic.mk (Some "x") 7 2.8 (Some 0.4%float));
              ("y", Statistic.mk (Some "y") 5 1 None)] A in
  Logger.merge [A; B; B] = Ok R
  /\ exists r, Dict.get (Logger.statisticDct R) "x" = Some r
       /\ Statistic.count r = 7 /\ Statistic.mean r = Some 0.4%float.
Proof.
  intros A B R.
  assert (Hm : Logger.merge [A; B; B] = Ok R) by (vm_compute; reflexivity).
  split; [exact Hm|].
  destruct (merge_statistics A B R [B]) as (_ & H); [|exact Hm|].
  { unfold Dict.wf. simpl. compute_done. }
  destruct (H "x" (Statistic.mk (Some "x") 3 1.2 (Some 0.4%float)) eq_refl)
    as (r & Hr & _ & Hc & _ & Hmean & _).
  exists r. split; [exact Hr|]. split; [exact Hc | exact Hmean].
Defined.

(** X11. [Logger.merge] takes everything but the statistics from the
    first logger: configuration, live spans, unpaired count and the cached
    report, so that the report of the result is the stale report of the
    first logger when it had one. *)
Theorem merge_keeps_first (A B R : Logger.t) (rest : list Logger.t)
    (df : DataFrame) :
  Logger.merge (A :: B :: rest) = Ok R ->
  config R = config A
  /\ Logger.blockDct R = Logger.blockDct A
  /\ Logger.unpairedBlocks R = Logger.unpairedBlocks A
  /\ Logger._performanceDF R = Logger._performanceDF A
  /\ (Logger._performanceDF A = Some df ->
      Logger.performanceDF R = Returns df R).
Proof.
  intros Hm. pose proof (merge_spec A B rest) as Hs.
  destruct (first_lacking _ _); [congruence|].
  destruct Hs as (d & Hd & _). rewrite Hm in Hd. injection Hd as ->.
  repeat split. intros Hc. by apply performanceDF_cached_returns.
Qed.

Lemma merge_keeps_first_witness :
  let A := Logger.set_performanceDF (Some [("x", mkRow 3 (Some 0.4%float) 1.2)])
             (Logger.set_statisticDct
                [("x", Statistic.mk (Some "x") 3 1.2 (Some 0.4%float))]
                (Logger.init true None 3 0)) in
  let B := Logger.set_statisticDct [("x", Statistic.mk (Some "x") 2 0.8 None)]
             (Logger.init true None 3 1) in
  let R := Logger.set_statisticDct
             [("x", Statistic.mk (Some "x") 5 2 (Some 0.4%float))] A in
  Logger.merge [A; B] = Ok R
  /\ Logger.performanceDF R
     = Returns [("x", mkRow 3 (Some 0.4%float) 1.2)] R.
Proof.
  intros A B R.
  assert (Hm : Logger.merge [A; B] = Ok R) by (vm_compute; reflexivity).
  split; [exact Hm|].
  destruct (merge_keeps_first A B R [] [("x", mkRow 3 (Some 0.4%float) 1.2)] Hm)
    as (_ & _ & _ & _ & H).
  apply H. reflexivity.
Defined.

(** ** Opening and closing a span *)

(** X12. [startBlock] followed by [endBlock] on the identifier returned
    leaves the live-span table as it was and changes only the statistic
    of the block name, updated by the difference of the two clock
    readings; nothing is written. *)
Theorem startBlock_endBlock (block : string) (t1 t2 : float) (w : World)
    (self : Logger.t) :
  Logger.blockDct self !! guid_counter w = None ->
  let started := state_of (Logger.startBlock block t1 w self) in
  let statistic :=
    default (Statistic.init (Some block))
            (Dict.get (Logger.statisticDct self) block) in
  Logger.endBlock (guid_counter w) t2 started.1 started.2
  = Returns tt
      (mkWorld (guid_counter w + 1) (written w),
       Logger.set_statisticDct
         (Dict.set (Logger.statisticDct self) block
            (Statistic.update (t2 - t1) statistic))
         self).
Proof.
  intros Hfresh started statistic. unfold started.
  rewrite startBlock_spec. cbn [state_of fst snd].
  erewrite endBlock_registered; [|apply lookup_insert_eq|done].
  cbn [BlockSpecification.block BlockSpecification.startTime].
  destruct self as [r f t0 lv u bd pf sd]. simpl in *.
  by rewrite delete_insert_id.
Qed.

Lemma startBlock_endBlock_witness :
  let self := Logger.init true None LEVEL_STATUS 0 in
  let w := mkWorld 4 [] in
  Logger.endBlock 4 3.5 (state_of (Logger.startBlock "x" 1 w self)).1
                  (state_of (Logger.startBlock "x" 1 w self)).2
  = Returns tt
      (mkWorld 5 [],
       Logger.set_statisticDct [("x", Statistic.mk (Some "x") 1 2.5 None)] self).
Proof.
  intros self w. apply (startBlock_endBlock "x" 1 3.5 w self). reflexivity.
Defined.

(** On a live identifier [endBlock] writes nothing, so it does what it
    does when every write succeeds. *)
Lemma endBlock_io_registered (env : Environment) (guid : Z) (now : float)
    (w : World) (self : Logger.t) (spec : BlockSpecification.t) :
  Logger.blockDct self !! guid = Some spec ->
  LoggerIO.endBlock env guid now w self = Logger.endBlock guid now w self.
Proof.
  intros Hg. unfold LoggerIO.endBlock, Logger.endBlock. by rewrite Hg.
Qed.

(** On an identifier that is not live [endBlock] leaves the logger and
    the counter alone; when it raises it has written nothing, and what it
    raises comes from printing the identifier or from writing the
    diagnostic. *)
Lemma endBlock_io_frame (env : Environment) (guid : Z) (now : float)
    (w : World) (self : Logger.t) :
  Logger.blockDct self !! guid = None ->
  (state_of (LoggerIO.endBlock env guid now w self)).2 = self
  /\ guid_counter (state_of (LoggerIO.endBlock env guid now w self)).1
     = guid_counter w
  /\ forall e,
       result_of (LoggerIO.endBlock env guid now w self) = Err e ->
       state_of (LoggerIO.endBlock env guid now w self) = (w, self)
       /\ (LoggerIO.format_d env guid = Err e
           \/ Logger.isReport self = true
              /\ LEVEL_EXCEPTION ≤ Logger.logLevel self
              /\ LoggerIO.failure env self = Some e).
Proof.
  intros Hg. unfold LoggerIO.endBlock. rewrite Hg.
  destruct (LoggerIO.format_d env guid) as [number|e'] eqn:Hf.
  - unfold LoggerIO.exception, LoggerIO._write.
    destruct (Logger.isReport self) eqn:Hr; simpl;
      [|by split; [|split]].
    case_bool_decide as Hl; simpl; [|by split; [|split]].
    destruct (LoggerIO.failure env self) as [e'|] eqn:He; simpl.
    + split; [done|]. split; [done|]. intros e0 [= <-]. split; [done|].
      by right.
    + by split; [|split].
  - simpl. split; [done|]. split; [done|]. intros e0 [= <-].
    split; [done|]. by left.
Qed.

(** X13. Closing a span twice: the first [endBlock] returns and removes
    the span; the second changes nothing in the logger, the duration is
    counted once, and it returns unless its diagnostic fails: it raises
    what printing the identifier or, when the diagnostic is due, writing
    the line raises. *)
Theorem endBlock_twice (env : Environment) (guid : Z) (t1 t2 : float)
    (w : World) (self : Logger.t) (spec : BlockSpecification.t) :
  Logger.blockDct self !! guid = Some spec ->
  BlockSpecification.guid spec = guid ->
  let ended := state_of (LoggerIO.endBlock env guid t1 w self) in
  let again := LoggerIO.endBlock env guid t2 ended.1 ended.2 in
  result_of (LoggerIO.endBlock env guid t1 w self) = Ok tt
  /\ Logger.blockDct ended.2 !! guid = None
  /\ (state_of again).2 = ended.2
  /\ result_of again
     = match LoggerIO.format_d env guid with
       | Err e => Err e
       | Ok _ =>
           if Logger.isReport self
              && bool_decide (LEVEL_EXCEPTION ≤ Logger.logLevel self)
           then match LoggerIO.failure env self with
                | Some e => Err e
                | None => Ok tt
                end
           else Ok tt
       end.
Proof.
  intros Hspec Hguid ended again. unfold again, ended.
  rewrite (endBlock_io_registered env guid t1 w self spec Hspec).
  rewrite (endBlock_registered guid t1 w self spec Hspec Hguid).
  cbn [state_of result_of fst snd]. split; [done|].
  set (self' := Logger.set_blockDct _ _).
  assert (Logger.blockDct self' !! guid = None) as Hgone.
  { unfold self'. cbn [Logger.blockDct Logger.set_blockDct].
    apply lookup_delete_eq. }
  split; [done|].
  split; [by apply endBlock_io_frame|].
  unfold LoggerIO.endBlock. rewrite Hgone.
  destruct (LoggerIO.format_d env guid); [|done].
  unfold LoggerIO.exception, LoggerIO._write, LoggerIO.failure.
  change (Logger.isReport self') with (Logger.isReport self).
  change (Logger.logLevel self') with (Logger.logLevel self).
  change (Logger.toFile self') with (Logger.toFile self).
  destruct (_ && _); [|done].
  by destruct (match Logger.toFile self with
               | Some EmptyString => _ | _ => _ end).
Qed.

(** X13 on a logger whose file cannot be written: the second [endBlock]
    raises and leaves the state as the first left it. *)
Lemma endBlock_twice_witness :
  let env := mkEnvironment (fun dest => match dest with
                                        | Some _ => Some (OSError "PermissionError")
                                        | None => None
                                        end) 4300 in
  let self := (state_of (Logger.startBlock "x" 1 (mkWorld 4 [])
                           (Logger.init true (Some "log") LEVEL_ERROR 0))).2 in
  let ended := state_of (LoggerIO.endBlock env 4 3.5 (mkWorld 5 []) self) in
  Logger.statisticDct ended.2 = [("x", Statistic.mk (Some "x") 1 2.5 None)]
  /\ LoggerIO.endBlock env 4 9 ended.1 ended.2
     = Raises (OSError "PermissionError") ended.
Proof.
  intros env self ended. split; [vm_compute; reflexivity|].
  destruct (endBlock_twice env 4 3.5 9 (mkWorld 5 []) self
              (BlockSpecification.mk 4 1 "x" None)) as (_ & _ & Hs & Hr);
    [vm_compute; reflexivity | reflexivity |].
  fold ended in Hs, Hr.
  destruct (LoggerIO.endBlock env 4 9 ended.1 ended.2) as [[] s|e s] eqn:Ho;
    [vm_compute in Ho; discriminate|].
  vm_compute in Ho. injection Ho as <- <-. reflexivity.
Defined.

(** ** What raises in a run *)

Lemma wf_set {V} (d : Dict.t V) (k : string) (v : V) :
  Dict.wf d -> Dict.wf (Dict.set d k v).
Proof.
  unfold Dict.wf. intros Hd.
  destruct (decide (k ∈ Dict.keys d)) as [Hin|Hin].
  - by rewrite keys_set_old.
  - rewrite keys_set_new by done. apply NoDup_app. split; [done|].
    split; [|apply NoDup_singleton].
    intros x Hx ->%list_elem_of_singleton. done.
Qed.

Lemma Forall_set {V} (P : string * V -> Prop) (d : Dict.t V) (k : string)
    (v : V) :
  Forall P d -> P (k, v) -> Forall P (Dict.set d k v).
Proof.
  intros Hd Hv. induction Hd as [|[k' v'] d Hx Hd IH]; simpl.
  - by repeat constructor.
  - case_decide; [subst; by constructor | by constructor].
Qed.

Lemma get_Forall {V} (P : string * V -> Prop) (d : Dict.t V) (k : string)
    (v : V) :
  Forall P d -> Dict.get d k = Some v -> P (k, v).
Proof.
  induction 1 as [|[k' v'] d Hx Hd IH]; simpl; [done|].
  case_decide; [|done]. intros [= <-]. by subst.
Qed.

Lemma sound_mono n n' w self : n ≤ n' -> sound n w self -> sound n' w self.
Proof.
  intros Hn (Hb & Hwf & Hc). split; [done|]. split; [done|].
  eapply Forall_impl; [done|]. simpl. lia.
Qed.

Lemma sound_init isReport toFile logLevel now w :
  sound 0 w (Logger.init isReport toFile logLevel now).
Proof.
  split; [|split].
  - intros g spec. simpl. by rewrite lookup_empty.
  - apply NoDup_nil_2.
  - constructor.
Qed.

Lemma live_sound_startBlock w self block now :
  live_sound w self ->
  Logger.blockDct self !! guid_counter w = None
  /\ live_sound (state_of (Logger.startBlock block now w self)).1
                (state_of (Logger.startBlock block now w self)).2.
Proof.
  intros Hb. split.
  - destruct (Logger.blockDct self !! guid_counter w) as [spec|] eqn:Hs;
      [|done].
    apply Hb in Hs as [_ ?]. lia.
  - rewrite startBlock_spec. cbn [state_of fst snd].
    intros g spec. cbn [Logger.blockDct Logger.set_blockDct guid_counter].
    destruct (decide (guid_counter w = g)) as [<-|Hne].
    + rewrite lookup_insert_eq. intros [= <-]. simpl. split; [done|lia].
    + rewrite lookup_insert_ne by done. intros [? ?]%Hb. split; [done|lia].
Qed.

Lemma sound_startBlock n w self block now :
  sound n w self ->
  sound n (state_of (Logger.startBlock block now w self)).1
          (state_of (Logger.startBlock block now w self)).2.
Proof.
  intros (Hb & Hwf & Hc).
  split; [by apply live_sound_startBlock | by split].
Qed.

Lemma live_sound_endBlock w self guid now :
  live_sound w self ->
  live_sound (state_of (Logger.endBlock guid now w self)).1
             (state_of (Logger.endBlock guid now w self)).2.
Proof.
  intros Hb. destruct (Logger.blockDct self !! guid) as [spec|] eqn:Hspec.
  - destruct (Hb guid spec Hspec) as [Hguid Hlt].
    rewrite (endBlock_registered guid now w self spec Hspec Hguid).
    cbn [state_of fst snd]. intros g spec'.
    cbn [Logger.blockDct Logger.set_blockDct].
    intros [_ Hg]%lookup_delete_Some. by apply Hb.
  - unfold Logger.endBlock. rewrite Hspec. cbn [state_of fst snd].
    intros g spec Hg. apply Hb in Hg as [? ?]. by rewrite exception_counter.
Qed.

Lemma live_sound_invoke w self c :
  live_sound w self ->
  live_sound (state_of (invoke c w self)).1 (state_of (invoke c w self)).2.
Proof.
  intros Hb. destruct c as [b t|g t|].
  - by apply (live_sound_startBlock w self b t).
  - pose proof (live_sound_endBlock w self g t Hb) as H.
    unfold invoke. by destruct (Logger.endBlock g t w self).
  - destruct (performanceDF_frame self) as [Hbd _].
    unfold invoke. destruct (Logger.performanceDF self); simpl in *;
      intros g spec; rewrite Hbd; apply Hb.
Qed.

Lemma live_sound_run isReport toFile logLevel now w calls :
  live_sound (run calls w (Logger.init isReport toFile logLevel now)).1.1
             (run calls w (Logger.init isReport toFile logLevel now)).1.2.
Proof.
  induction calls as [|c calls IH] using rev_ind.
  - intros g spec. simpl. by rewrite lookup_empty.
  - rewrite run_snoc. destruct (run calls w _) as [[w' self'] log].
    cbn [step fst snd] in *. by apply live_sound_invoke.
Qed.

Lemma sound_endBlock n w self guid now :
  0 ≤ n -> sound n w self ->
  result_of (Logger.endBlock guid now w self) = Ok tt
  /\ sound (n + 1) (state_of (Logger.endBlock guid now w self)).1
                   (state_of (Logger.endBlock guid now w self)).2.
Proof.
  intros Hn Hs. pose proof Hs as (Hb & Hwf & Hc).
  destruct (Logger.blockDct self !! guid) as [spec|] eqn:Hspec.
  - destruct (Hb guid spec Hspec) as [Hguid Hlt].
    rewrite (endBlock_registered guid now w self spec Hspec Hguid).
    cbn [state_of result_of fst snd]. split; [done|]. split; [|split].
    + pose proof (live_sound_endBlock w self guid now Hb) as Hl.
      by rewrite (endBlock_registered guid now w self spec Hspec Hguid) in Hl.
    + cbn [Logger.statisticDct Logger.set_blockDct Logger.set_statisticDct].
      by apply wf_set.
    + cbn [Logger.statisticDct Logger.set_blockDct Logger.set_statisticDct].
      apply Forall_set.
      * eapply Forall_impl; [done|]. simpl. lia.
      * simpl.
        destruct (Dict.get (Logger.statisticDct self)
                    (BlockSpecification.block spec)) as [s|] eqn:Hget; simpl.
        -- apply (get_Forall _ _ _ _ Hc) in Hget. simpl in Hget. lia.
        -- lia.
  - unfold Logger.endBlock. rewrite Hspec. cbn [state_of result_of fst snd].
    split; [done|]. apply (sound_mono n); [lia|].
    split; [|by split]. intros g spec Hg. apply Hb in Hg as [? ?].
    by rewrite exception_counter.
Qed.

(** On a table with distinct keys whose statistics [summarize()] returns
    on, the first access of the report returns. *)
Lemma performanceDF_computes (self : Logger.t) :
  Logger._performanceDF self = None ->
  Dict.wf (Logger.statisticDct self) ->
  Forall (fun bs => result_of (Statistic.summarize bs.2) = Ok tt)
         (Logger.statisticDct self) ->
  let d := prod_map id summarized <$> Logger.statisticDct self in
  let df := sort_index (row_of <$> d) in
  Logger.performanceDF self
  = Returns df
      (Logger.set_performanceDF (Some df)
         (Logger.set_statisticDct d
            (Logger.set_unpairedBlocks
               (Z.of_nat (size (Logger.blockDct self))) self))).
Proof.
  intros Hc Hwf Hs d df.
  unfold Logger.performanceDF. rewrite Hc. cbv zeta. simpl.
  rewrite summarize_values_returns by done. fold d.
  replace (Dict.keys (Logger.statisticDct self)) with (Dict.keys d)
    by apply keys_summarized.
  assert (Dict.wf d) as Hd.
  { unfold Dict.wf, d. by rewrite keys_summarized. }
  rewrite !column_keys by done. simpl. by rewrite frame_rows.
Qed.

Lemma sound_performanceDF n w self :
  n < 2 ^ 53 -> sound n w self ->
  (exists df, result_of (Logger.performanceDF self) = Ok df)
  /\ sound n w (state_of (Logger.performanceDF self)).
Proof.
  intros Hn (Hb & Hwf & Hc).
  destruct (Logger._performanceDF self) as [df|] eqn:Hcache.
  - rewrite (performanceDF_cached_returns self df Hcache). simpl.
    split; [by eexists|]. by split.
  - rewrite performanceDF_computes; [|done|done|].
    + cbn [state_of result_of]. split; [by eexists|]. split; [done|].
      cbn [Logger.statisticDct Logger.set_performanceDF
           Logger.set_statisticDct]. split.
      * unfold Dict.wf. by rewrite keys_summarized.
      * apply Forall_fmap. eapply Forall_impl; [done|].
        intros [b s] Hs. simpl in *.
        destruct (summarize_same_sums s) as (_ & Hcount & _).
        unfold summarized. unfold state_of in Hcount.
        destruct (Statistic.summarize s); simpl in *; lia.
    + eapply Forall_impl; [done|]. intros [b s] Hs. simpl in *.
      apply summarize_returns_small. lia.
Qed.

Lemma sound_invoke n w self c :
  0 ≤ n < 2 ^ 53 -> sound n w self ->
  (exists v, result_of (invoke c w self) = Ok v)
  /\ sound (n + 1) (state_of (invoke c w self)).1
                   (state_of (invoke c w self)).2.
Proof.
  intros Hn Hs. destruct c as [b t|g t|].
  - pose proof (sound_startBlock n w self b t Hs) as Hs'.
    rewrite invoke_startBlock. cbn [state_of result_of]. split; [by eexists|].
    rewrite startBlock_spec in Hs'. by apply (sound_mono n); [lia|].
  - destruct (sound_endBlock n w self g t) as [Hr Hs']; [lia|done|].
    unfold invoke. destruct (Logger.endBlock g t w self) as [[] s|e s];
      simpl in *; [|done]. split; [by eexists|done].
  - destruct (sound_performanceDF n w self) as [[df Hr] Hs']; [lia|done|].
    unfold invoke. destruct (Logger.performanceDF self) as [df' s|e s];
      simpl in *; [|done]. split; [by eexists|].
    by apply (sound_mono n); [lia|].
Qed.

(** A call under an environment does what it does when every write
    succeeds, unless it is an [endBlock] that raises on its diagnostic
    and leaves the state as it was. *)
Lemma invoke_io_cases (env : Environment) (c : call) (w : World)
    (self : Logger.t) :
  LoggerIO.invoke env c w self = invoke c w self
  \/ exists guid t e,
       c = EndBlock guid t
       /\ LoggerIO.invoke env c w self = Raises e (w, self)
       /\ (LoggerIO.format_d env guid = Err e
           \/ Logger.isReport self = true
              /\ LEVEL_EXCEPTION ≤ Logger.logLevel self
              /\ LoggerIO.failure env self = Some e).
Proof.
  destruct c as [b t|g t|]; [by left| |by left].
  destruct (Logger.blockDct self !! g) as [spec|] eqn:Hg.
  - left. unfold LoggerIO.invoke, invoke.
    by rewrite (endBlock_io_registered env g t w self spec Hg).
  - unfold LoggerIO.invoke, invoke, LoggerIO.endBlock, Logger.endBlock.
    rewrite Hg.
    destruct (LoggerIO.format_d env g) as [number|e] eqn:Hf.
    + unfold LoggerIO.format_d in Hf. case_bool_decide; [done|].
      injection Hf as <-.
      unfold LoggerIO.exception, Logger.exception, LoggerIO._write.
      destruct (Logger.isReport self) eqn:Hr; simpl; [|by left].
      case_bool_decide as Hl; simpl; [|by left].
      destruct (LoggerIO.failure env self) as [e|] eqn:He; [|by left].
      right. exists g, t, e. split; [done|]. split; [done|]. by right.
    + right. exists g, t, e. split; [done|]. split; [done|]. by left.
Qed.

Lemma invoke_config (c : call) (w : World) (self : Logger.t) :
  config (state_of (invoke c w self)).2 = config self.
Proof. apply (apply_op_written (Call c) w self). Qed.

Lemma run_io_snoc env calls c w self :
  LoggerIO.run env (calls ++ [c]) w self
  = LoggerIO.step env (LoggerIO.run env calls w self) c.
Proof. unfold LoggerIO.run. apply foldl_snoc. Qed.

Lemma failure_config env self self' :
  config self' = config self ->
  LoggerIO.failure env self' = LoggerIO.failure env self.
Proof. unfold config, LoggerIO.failure. by intros [= _ -> _ _]. Qed.

(** X14. In a run of up to [2^53] calls on a new logger, in any
    environment, the only call that raises is an [endBlock] whose
    diagnostic fails: printing its identifier raises, or reporting is on,
    the level admits exceptions and writing to the destination raises.
    Whatever is raised, the logger stays sound: live spans are stored
    under their own identifier, below the counter, each block name is in
    the statistic table once, no count is negative or above the number
    of calls, and the configuration is that of the constructor. *)
Theorem run_returns (env : Environment) (isReport : bool)
    (toFile : option string) (logLevel : Z) (now : float) (w : World)
    (calls : list call) :
  Z.of_nat (length calls) ≤ 2 ^ 53 ->
  let self0 := Logger.init isReport toFile logLevel now in
  let st := LoggerIO.run env calls w self0 in
  (forall c r, (c, r) ∈ st.2 ->
     (exists v, r = Ok v)
     \/ exists guid t e,
          c = EndBlock guid t /\ r = Err e
          /\ (LoggerIO.format_d env guid = Err e
              \/ isReport = true
                 /\ LEVEL_EXCEPTION ≤ logLevel
                 /\ LoggerIO.failure env self0 = Some e))
  /\ sound (Z.of_nat (length calls)) st.1.1 st.1.2
  /\ config st.1.2 = config self0.
Proof.
  intros Hlen self0.
  induction calls as [|c calls IH] using rev_ind; intros st.
  - split; [by intros ?? ?%elem_of_nil|]. split; [apply sound_init|done].
  - unfold st. rewrite run_io_snoc. rewrite length_app in Hlen |- *.
    simpl in Hlen.
    destruct IH as (Hres & Hs & Hcfg); [lia|].
    destruct (LoggerIO.run env calls w self0) as [[w' self'] log].
    cbn [LoggerIO.step fst snd] in *.
    replace (Z.of_nat (length calls + length [c]))
      with (Z.of_nat (length calls) + 1) by (simpl; lia).
    destruct (invoke_io_cases env c w' self')
      as [->|(g & t & e & -> & -> & Hwhy)].
    + destruct (sound_invoke (Z.of_nat (length calls)) w' self' c)
        as [Hr Hs']; [lia|done|].
      split; [|split; [done|]].
      * intros c' r [Hin|Hin%list_elem_of_singleton]%elem_of_app; [eauto|].
        injection Hin as -> ->. by left.
      * by rewrite invoke_config.
    + cbn [state_of result_of fst snd]. split; [|split; [|done]].
      * intros c' r [Hin|Hin%list_elem_of_singleton]%elem_of_app; [eauto|].
        injection Hin as -> ->. right. exists g, t, e.
        split; [done|]. split; [done|].
        destruct Hwhy as [?|(Hr & Hl & Hf)]; [by left|right].
        rewrite (failure_config env self0 self') in Hf by done.
        unfold config in Hcfg. injection Hcfg as Hr' _ _ Hl'.
        simpl in Hr', Hl'. split; [congruence|]. split; [congruence|done].
      * apply (sound_mono (Z.of_nat (length calls))); [lia|done].
Qed.

(** X14 on a standard output that is closed, at the status level: no
    diagnostic is due and no call raises. *)
Lemma run_returns_witness :
  let env := mkEnvironment (fun _ => Some (OSError "BrokenPipeError")) 0 in
  let st := LoggerIO.run env
              [EndBlock 3 1; StartBlock "x" 2; PerformanceDF;
               EndBlock 0 3; EndBlock 0 4; StartBlock "x" 5; PerformanceDF]
              (mkWorld 0 []) (Logger.init true None LEVEL_STATUS 0) in
  Forall (fun e : entry => exists v, e.2 = Ok v) st.2
  /\ Dict.wf (Logger.statisticDct st.1.2)
  /\ Forall (fun item : string * Statistic.t => 0 ≤ Statistic.count item.2 ≤ 7)
            (Logger.statisticDct st.1.2).
Proof.
  intros env st.
  destruct (run_returns env true None LEVEL_STATUS 0 (mkWorld 0 [])
              [EndBlock 3 1; StartBlock "x" 2; PerformanceDF;
               EndBlock 0 3; EndBlock 0 4; StartBlock "x" 5; PerformanceDF])
    as (Hres & (_ & Hwf & Hc) & _).
  - vm_compute. discriminate.
  - fold env st in Hres. split; [|split; [exact Hwf | exact Hc]].
    apply Forall_forall. intros [c r] Hin. simpl.
    destruct (Hres c r Hin) as [Hv|(g & t & e & _ & _ & [Hf|(_ & Hl & _)])];
      [exact Hv | vm_compute in Hf; discriminate | vm_compute in Hl; done].
Defined.

(** X15. In a run no [startBlock] replaces a live span: the identifier it
    returns is not in the live-span table, whose spans have smaller
    identifiers, and the table grows by one. *)
Theorem startBlock_never_overwrites (isReport : bool) (toFile : option string)
    (logLevel : Z) (now : float) (w : World) (calls : list call)
    (block : string) (now' : float) :
  let st := run calls w (Logger.init isReport toFile logLevel now) in
  let started := state_of (Logger.startBlock block now' st.1.1 st.1.2) in
  Logger.blockDct st.1.2 !! guid_counter st.1.1 = None
  /\ (forall g spec, Logger.blockDct st.1.2 !! g = Some spec ->
        BlockSpecification.guid spec = g /\ g < guid_counter st.1.1)
  /\ size (Logger.blockDct started.2) = S (size (Logger.blockDct st.1.2)).
Proof.
  intros st started.
  pose proof (live_sound_run isReport toFile logLevel now w calls) as Hs.
  fold st in Hs.
  destruct (live_sound_startBlock _ _ block now' Hs) as [Hfresh _].
  split; [done|]. split; [done|]. unfold started. rewrite startBlock_spec.
  cbn [state_of fst snd Logger.blockDct Logger.set_blockDct].
  by apply map_size_insert_None.
Qed.

(** ** The key a failed merge names *)

Lemma first_missing_split d keys k :
  first_missing d keys = Some k ->
  exists kpre kpost,
    keys = kpre ++ k :: kpost
    /\ (forall k', k' ∈ kpre -> k' ∈ Dict.keys d)
    /\ k ∉ Dict.keys d.
Proof.
  induction keys as [|k' keys IH]; simpl; [done|].
  destruct (Dict.mem d k') eqn:Hm.
  - intros (kpre & kpost & -> & Hpre & Hk)%IH.
    exists (k' :: kpre), kpost. split; [done|]. split; [|done].
    intros x [->|?]%elem_of_cons; [by apply mem_true | by apply Hpre].
  - intros [= ->]. exists [], keys. split; [done|].
    split; [by intros ? ?%elem_of_nil | by apply mem_false].
Qed.

Lemma first_lacking_split keys others k :
  first_lacking keys others = Some k ->
  exists pre o post,
    others = pre ++ o :: post
    /\ (forall o', o' ∈ pre -> keys ⊆ block_names o')
    /\ first_missing (Logger.statisticDct o) keys = Some k.
Proof.
  induction others as [|o others IH]; simpl; [done|].
  destruct (first_missing (Logger.statisticDct o) keys) as [k'|] eqn:Hm.
  - intros [= ->]. exists [], o, others. split; [done|].
    split; [by intros ? ?%elem_of_nil | done].
  - intros (pre & o' & post & -> & Hpre & Hk)%IH.
    exists (o :: pre), o', post. split; [done|]. split; [|done].
    intros x [->|?]%elem_of_cons; [by apply first_missing_None | by apply Hpre].
Qed.

(** X16. An error of [Logger.merge] on two loggers or more is a KeyError
    whose key is a block name of the first logger, missing from a later
    logger [o]; the loggers before [o] have all the block names of the
    first, and [o] has those that come before the key in the first
    logger's table. *)
Theorem merge_error_key (A B : Logger.t) (rest : list Logger.t) (e : exn) :
  Logger.merge (A :: B :: rest) = Err e ->
  exists k pre o post kpre kpost,
    e = KeyError (KStr k)
    /\ B :: rest = pre ++ o :: post
    /\ (forall o', o' ∈ pre -> block_names A ⊆ block_names o')
    /\ block_names A = kpre ++ k :: kpost
    /\ (forall k', k' ∈ kpre -> k' ∈ block_names o)
    /\ k ∉ block_names o.
Proof.
  intros Hm. pose proof (merge_spec A B rest) as Hs.
  destruct (first_lacking (block_names A) (B :: rest)) as [k|] eqn:Hf.
  - apply first_lacking_split in Hf as (pre & o & post & Ho & Hpre & Hk).
    apply first_missing_split in Hk as (kpre & kpost & Hks & Hkpre & Hkn).
    exists k, pre, o, post, kpre, kpost. repeat split; try done. congruence.
  - destruct Hs as (d & Hd & _). congruence.
Qed.

Lemma merge_error_key_witness :
  let A := Logger.set_statisticDct
             [("x", Statistic.mk (Some "x") 3 1.2 None);
              ("y", Statistic.mk (Some "y") 1 0.5 None);
              ("z", Statistic.mk (Some "z") 1 0.5 None)]
             (Logger.init true None 3 0) in
  let B := Logger.set_statisticDct [("x", Statistic.mk (Some "x") 2 0.8 None)]
             (Logger.init true None 3 1) in
  exists k, Logger.merge [A; A; B] = Err (KeyError (KStr k))
            /\ k ∈ block_names A.
Proof.
  intros A B.
  destruct (merge_error_key A A [B] (KeyError (KStr "y")))
    as (k & pre & o & post & kpre & kpost & He & _ & _ & Hk & _).
  - vm_compute. reflexivity.
  - injection He as <-. exists "y". split; [vm_compute; reflexivity|].
    rewrite Hk. apply elem_of_app. right. left.
Defined.

(** ** The report of a run *)

Lemma get_Some_elem_of {V} (d : Dict.t V) (k : string) (v : V) :
  Dict.get d k = Some v -> (k, v) ∈ d.
Proof.
  intros Hg. apply (get_Forall (fun item => item ∈ d) d k v); [|done].
  by apply Forall_forall.
Qed.

Lemma sound_run isReport toFile logLevel now w calls :
  Z.of_nat (length calls) ≤ 2 ^ 53 ->
  sound (Z.of_nat (length calls))
        (run calls w (Logger.init isReport toFile logLevel now)).1.1
        (run calls w (Logger.init isReport toFile logLevel now)).1.2.
Proof.
  induction calls as [|c calls IH] using rev_ind; intros Hlen.
  - apply sound_init.
  - rewrite run_snoc. rewrite length_app in Hlen |- *. simpl in Hlen.
    specialize (IH ltac:(lia)).
    destruct (run calls w _) as [[w' self'] log]. cbn [step fst snd] in *.
    destruct (sound_invoke (Z.of_nat (length calls)) w' self' c) as [_ Hs'];
      [lia|done|].
    replace (Z.of_nat (length calls + length [c]))
      with (Z.of_nat (length calls) + 1) by (simpl; lia).
    done.
Qed.

(** X17. The first report of a run of matched calls on a new logger
    returns, sorted by block name, one row per block name that had a span
    closed and no other row: the count is the number of spans closed, the
    total the float sum of their durations in the order of closing, and
    the mean the total divided by the count. *)
Theorem report_of_run (isReport : bool) (toFile : option string)
    (logLevel : Z) (now : float) (w : World) (calls : list call) :
  let st := run calls w (Logger.init isReport toFile logLevel now) in
  matched st.2 ->
  Z.of_nat (length calls) < 2 ^ 53 ->
  Logger._performanceDF st.1.2 = None ->
  exists df,
    Logger.performanceDF st.1.2
    = Returns df (state_of (Logger.performanceDF st.1.2))
    /\ StronglySorted index_le df
    /\ NoDup df.*1
    /\ forall block row,
         (block, row) ∈ df <-> measured_row (durations block st.2) row.
Proof.
  intros st Hm Hlen Hcache.
  pose proof (timing_inv_run isReport toFile logLevel now w calls Hm) as Hinv.
  pose proof (sound_run isReport toFile logLevel now w calls ltac:(lia))
    as (_ & Hwf & Hcount).
  fold st in Hinv, Hwf, Hcount.
  set (self := st.1.2) in *. set (log := st.2) in *.
  assert (Forall (fun bs => Z.abs (Statistic.count bs.2) < 2 ^ 53)
            (Logger.statisticDct self)) as Hsmall.
  { eapply Forall_impl; [done|]. intros [b s] Hs. simpl in *. lia. }
  assert (Forall (fun bs => result_of (Statistic.summarize bs.2) = Ok tt)
            (Logger.statisticDct self)) as Hret.
  { eapply Forall_impl; [exact Hsmall|]. intros [b s] Hs.
    by apply summarize_returns_small. }
  pose proof (performanceDF_computes self Hcache Hwf Hret) as Hdf.
  cbv zeta in Hdf. rewrite Hdf. cbn [state_of].
  eexists. split; [done|]. split; [apply sort_index_sorted|].
  split.
  { rewrite sort_index_perm. rewrite <- list_fmap_compose.
    rewrite <- list_fmap_compose.
    erewrite list_fmap_ext; [exact Hwf|]. by intros ? []. }
  intros block row. rewrite sort_index_perm.
  assert (forall s, Dict.get (Logger.statisticDct self) block = Some s ->
            durations block log <> []
            /\ exists c,
                 Py.float_of_int (Z.of_nat (length (durations block log)))
                 = Ok c
                 /\ row_of (block, summarized s)
                    = (block,
                       mkRow (Z.of_nat (length (durations block log)))
                         (Some (fsum (durations block log) / c)%float)
                         (fsum (durations block log)))) as Hrow.
  { intros s Hg. pose proof (inv_stat _ _ _ Hinv block) as Hacc.
    rewrite Hg in Hacc. destruct Hacc as (Hne & Hc & Ht & _).
    split; [done|].
    pose proof (get_Forall _ _ _ _ Hsmall Hg) as Hs. simpl in Hs.
    destruct (float_of_int_small _ Hs) as [c Hfc].
    exists c. split; [by rewrite <- Hc|].
    assert (Statistic.count s <> 0) as Hnz.
    { rewrite Hc. destruct (durations block log); [done|simpl; lia]. }
    unfold row_of, summarized. rewrite (summarize_nonzero s c Hnz Hfc).
    simpl. by rewrite Hc, Ht. }
  split.
  - intros ([b s'] & Heq & ([b' s] & [= -> ->] & Hin)%list_elem_of_fmap)
      %list_elem_of_fmap.
    simpl in Heq. unfold row_of in Heq. simpl in Heq.
    injection Heq as <- ->.
    apply (get_elem_of _ _ _ Hwf) in Hin.
    destruct (Hrow s Hin) as (Hne & c & Hc & Hr).
    split; [done|]. exists c. split; [done|].
    unfold row_of in Hr. simpl in Hr. congruence.
  - intros (Hne & c & Hc & ->).
    pose proof (inv_stat _ _ _ Hinv block) as Hacc.
    destruct (Dict.get (Logger.statisticDct self) block) as [s|] eqn:Hg;
      [|done].
    destruct (Hrow s eq_refl) as (_ & c' & Hc' & Hr).
    assert (c' = c) as -> by congruence.
    rewrite <- Hr. apply list_elem_of_fmap. exists (block, summarized s).
    split; [done|]. apply list_elem_of_fmap. exists (block, s).
    split; [done|]. by apply get_Some_elem_of.
Qed.

Lemma report_of_run_witness :
  let st := run [StartBlock "x" 1; StartBlock "y" 2; StartBlock "x" 3;
                 EndBlock 7 4.5; EndBlock 5 4.5; EndBlock 6 8]
                (mkWorld 5 []) (Logger.init true None LEVEL_STATUS 0) in
  exists df,
    Logger.performanceDF st.1.2
    = Returns df (state_of (Logger.performanceDF st.1.2))
    /\ ("x", mkRow 2 (Some 2.5%float) 5%float) ∈ df.
Proof.
  intros st.
  destruct (report_of_run true None LEVEL_STATUS 0 (mkWorld 5 [])
              [StartBlock "x" 1; StartBlock "y" 2; StartBlock "x" 3;
               EndBlock 7 4.5; EndBlock 5 4.5; EndBlock 6 8])
    as (df & Hdf & _ & _ & Hrows).
  - change (matched
      [(StartBlock "x" 1, Ok (VInt 5)); (StartBlock "y" 2, Ok (VInt 6));
       (StartBlock "x" 3, Ok (VInt 7)); (EndBlock 7 4.5, Ok VNone);
       (EndBlock 5 4.5, Ok VNone); (EndBlock 6 8, Ok VNone)]).
    unfold matched. cbn.
    repeat split; try (apply (bool_decide_unpack _); vm_compute; reflexivity).
  - vm_compute. reflexivity.
  - reflexivity.
  - exists df. split; [exact Hdf|]. apply Hrows.
    split; [vm_compute; discriminate|].
    exists 2%float. split; vm_compute; reflexivity.
Defined.

(** ** The spans left open *)

Lemma live_count_run isReport toFile logLevel now w calls :
  matched (run calls w (Logger.init isReport toFile logLevel now)).2 ->
  (size (Logger.blockDct
           (run calls w (Logger.init isReport toFile logLevel now)).1.2)
   + length (ended (run calls w (Logger.init isReport toFile logLevel now)).2)
   = length (opened
               (run calls w (Logger.init isReport toFile logLevel now)).2))%nat.
Proof.
  induction calls as [|c calls IH] using rev_ind; [done|].
  rewrite run_snoc.
  pose proof (timing_inv_run isReport toFile logLevel now w calls) as Hinv.
  pose proof (live_sound_run isReport toFile logLevel now w calls) as Hlive.
  destruct (run calls w _) as [[w' self'] log]. cbn [step fst snd] in *.
  intros [Hm He]%matched_from_snoc. specialize (IH Hm). specialize (Hinv Hm).
  rewrite opened_snoc, ended_snoc, !length_app.
  destruct c as [b t|g t|].
  - rewrite invoke_startBlock.
    cbn [state_of result_of fst snd Logger.blockDct Logger.set_blockDct].
    rewrite map_size_insert_None.
    + simpl. lia.
    + destruct (Logger.blockDct self' !! guid_counter w') as [spec|] eqn:Hs;
        [|done].
      apply Hlive in Hs as [_ Hs]. lia.
  - simpl in He. destruct He as [[Hop Hen] _].
    pose proof (inv_live _ _ _ Hinv g) as Hg.
    rewrite decide_False in Hg by done.
    destruct (span_of_opened g log Hop) as [span Hspan].
    rewrite Hspan in Hg. simpl in Hg.
    unfold invoke.
    rewrite (endBlock_registered g t w' self' _ Hg eq_refl).
    cbn [state_of result_of fst snd Logger.blockDct Logger.set_blockDct
         Logger.set_statisticDct].
    rewrite map_size_delete_Some by (by rewrite Hg).
    assert (size (Logger.blockDct self') <> 0%nat) as Hnz.
    { intros H0%map_size_empty_inv. by rewrite H0, lookup_empty in Hg. }
    simpl. lia.
  - destruct (performanceDF_frame self') as [Hbd _].
    unfold invoke. destruct (Logger.performanceDF self') as [df s|e s];
      simpl in *; rewrite Hbd; lia.
Qed.

(** X18. After a run of matched calls the live-span table holds as many
    spans as were opened and not closed; the first report stores that
    number as [unpairedBlocks], and a later access, served from the cache,
    leaves [unpairedBlocks] as it is. *)
Theorem unpaired_blocks (isReport : bool) (toFile : option string)
    (logLevel : Z) (now : float) (w : World) (calls : list call) :
  let st := run calls w (Logger.init isReport toFile logLevel now) in
  let reported := state_of (Logger.performanceDF st.1.2) in
  matched st.2 ->
  Z.of_nat (size (Logger.blockDct st.1.2))
  = Z.of_nat (length (opened st.2)) - Z.of_nat (length (ended st.2))
  /\ (Logger._performanceDF st.1.2 = None ->
      Logger.unpairedBlocks reported
      = Z.of_nat (length (opened st.2)) - Z.of_nat (length (ended st.2)))
  /\ (Logger._performanceDF st.1.2 <> None ->
      Logger.unpairedBlocks reported = Logger.unpairedBlocks st.1.2).
Proof.
  intros st reported Hm.
  pose proof (live_count_run isReport toFile logLevel now w calls Hm) as Hn.
  fold st in Hn.
  assert (Z.of_nat (size (Logger.blockDct st.1.2))
          = Z.of_nat (length (opened st.2)) - Z.of_nat (length (ended st.2)))
    as Hsize by lia.
  split; [done|]. split.
  - intros Hc. rewrite <- Hsize. unfold reported, Logger.performanceDF.
    rewrite Hc. cbv zeta.
    destruct (Logger.summarize_values _) as [[] d|e d]; [|done].
    by destruct (rbind _ _).
  - intros Hc. unfold reported, Logger.performanceDF.
    by destruct (Logger._performanceDF st.1.2).
Qed.

Lemma unpaired_blocks_witness :
  let st := run [StartBlock "x" 1; StartBlock "y" 2; StartBlock "x" 3;
                 EndBlock 7 4.5]
                (mkWorld 5 []) (Logger.init true None LEVEL_STATUS 0) in
  Logger.unpairedBlocks (state_of (Logger.performanceDF st.1.2)) = 2.
Proof.
  intros st.
  destruct (unpaired_blocks true None LEVEL_STATUS 0 (mkWorld 5 [])
              [StartBlock "x" 1; StartBlock "y" 2; StartBlock "x" 3;
               EndBlock 7 4.5])
    as (_ & Hu & _).
  - change (matched
      [(StartBlock "x" 1, Ok (VInt 5)); (StartBlock "y" 2, Ok (VInt 6));
       (StartBlock "x" 3, Ok (VInt 7)); (EndBlock 7 4.5, Ok VNone)]).
    unfold matched. cbn.
    repeat split; try (apply (bool_decide_unpack _); vm_compute; reflexivity).
  - fold st in Hu. rewrite Hu; reflexivity.
Defined.
